(** * Skill co-occurrence network: a shallow embedding of
      [skillNetworkCreation.py] and the properties of its graph
      construction and neighbour query.

    The program reads a table of (job type, skill, region) rows with
    pandas, counts for every pair of skills the job types that mention
    both, stores the counts as edge weights of a networkx graph and
    prints the ten heaviest neighbours of a skill typed by the user.

    Modelling choices, all taken from the libraries the program calls:
    - a pandas cell is a string or the missing value [NaN];
    - a Python [dict] is an association list in insertion order:
      assigning to an existing key keeps its position, a new key goes
      to the end;
    - [Series.unique] keeps the first occurrence of every value, in
      order of appearance, and keeps [NaN];
    - [DataFrame.groupby] visits the groups by ascending key and keeps
      the rows of a group in their original order;
    - [sorted] is stable, also with [reverse=True];
    - a networkx [Graph] keeps a node-attribute dict and an adjacency
      dict with the same keys, inserted together; the model stores
      both under one key. *)

From Stdlib Require Import List String Ascii Arith Bool Lia.
From Stdlib Require Import Permutation Sorted.
From Stdlib Require Import DecimalString.
Import ListNotations.
Open Scope string_scope.

(** ** Keys with a decidable equality (Python's [__eq__] on hashable keys) *)

Class EqKey (K : Type) := {
  keqb : K -> K -> bool;
  keqb_spec : forall x y, reflect (x = y) (keqb x y)
}.

#[export] Instance EqKey_string : EqKey string :=
  {| keqb := String.eqb; keqb_spec := String.eqb_spec |}.

Lemma pair_eqb_spec {A B} `{EqKey A} `{EqKey B} (p q : A * B) :
  reflect (p = q) (keqb (fst p) (fst q) && keqb (snd p) (snd q)).
Proof.
  destruct p as [a b], q as [c d]; simpl.
  destruct (keqb_spec a c), (keqb_spec b d); simpl; constructor; congruence.
Qed.

#[export] Instance EqKey_pair {A B} `{EqKey A} `{EqKey B} : EqKey (A * B) :=
  {| keqb := fun p q => keqb (fst p) (fst q) && keqb (snd p) (snd q);
     keqb_spec := pair_eqb_spec |}.

(** ** Python dictionaries, in insertion order *)

Module Dict.
Section Ops.
Context {K V : Type} `{EqKey K}.

Definition t := list (K * V).

(** [d.get(k)] *)
Fixpoint get (d : t) (k : K) : option V :=
  match d with
  | [] => None
  | (k', v) :: d' => if keqb k k' then Some v else get d' k
  end.

(** [d[k] = v] *)
Fixpoint put (d : t) (k : K) (v : V) : t :=
  match d with
  | [] => [(k, v)]
  | (k', v') :: d' =>
      if keqb k k' then (k', v) :: d' else (k', v') :: put d' k v
  end.

(** [k in d] *)
Definition mem (d : t) (k : K) : bool :=
  match get d k with Some _ => true | None => false end.

Definition keys (d : t) : list K := map fst d.
Definition items (d : t) : list (K * V) := d.
End Ops.
Arguments t : clear implicits.
End Dict.

(** ** The data frame *)

(** A cell of an optional column: pandas reads an empty field as [NaN]. *)
Inductive cell : Type :=
| NaN
| Str (s : string).

Definition cell_eqb (a b : cell) : bool :=
  match a, b with
  | NaN, NaN => true
  | Str s, Str s' => String.eqb s s'
  | _, _ => false
  end.

Lemma cell_eqb_spec a b : reflect (a = b) (cell_eqb a b).
Proof.
  destruct a as [|s], b as [|s']; simpl; try (constructor; congruence).
  destruct (String.eqb_spec s s'); constructor; congruence.
Qed.

#[export] Instance EqKey_cell : EqKey cell :=
  {| keqb := cell_eqb; keqb_spec := cell_eqb_spec |}.

(** One row. ['Element ID'] and ['Element Name'] are the columns
    [parse_skill_data] requires; ['Region'] and ['JobType'] are read
    only when the frame has such a column. *)
Record Row : Type := {
  element_id : string;
  element_name : string;
  region : cell;
  job_type : cell
}.

Record DataFrame : Type := {
  columns : list string;
  rows : list Row
}.

(** [c in df.columns] *)
Definition in_columns (c : string) (df : DataFrame) : bool :=
  existsb (String.eqb c) (columns df).

(** [Series.unique()]: first occurrences, in order of appearance. *)
Fixpoint unique {A} `{EqKey A} (l : list A) : list A :=
  match l with
  | [] => []
  | x :: t => x :: filter (fun y => negb (keqb x y)) (unique t)
  end.

(** Ascending sort of the group keys. *)
Fixpoint insert_key (k : string) (l : list string) : list string :=
  match l with
  | [] => [k]
  | k' :: l' => if String.leb k k' then k :: l else k' :: insert_key k l'
  end.

Definition sort_keys (l : list string) : list string :=
  fold_right insert_key [] l.

(** [dropna] on a column: the strings of its cells. *)
Fixpoint dropna (l : list cell) : list string :=
  match l with
  | [] => []
  | NaN :: t => dropna t
  | Str s :: t => s :: dropna t
  end.

(** [df.groupby(col)]: the pairs (key, rows of that key), by ascending
    key; rows whose key is missing belong to no group. *)
Definition groupby (key : Row -> cell) (rs : list Row)
  : list (string * list Row) :=
  map (fun k => (k, filter (fun r => keqb (key r) (Str k)) rs))
      (sort_keys (unique (dropna (map key rs)))).

(** The ['Element ID'] column, which has no missing value. *)
Definition Element_ID (r : Row) : cell := Str (element_id r).

(** ** Co-occurrence counting (lines 51-60) *)

Definition pair_count := Dict.t (string * string) nat.

(** [tuple(sorted((x, y)))] *)
Definition sorted_pair (x y : string) : string * string :=
  if String.ltb y x then (y, x) else (x, y).

(** The index pairs [(skills[i], skills[j])], [i < j], in loop order. *)
Fixpoint index_pairs (skills : list string) : list (string * string) :=
  match skills with
  | [] => []
  | x :: rest => map (pair x) rest ++ index_pairs rest
  end.

(** [co_occurrence[pair] += 1] on a [defaultdict(int)] *)
Definition incr (co : pair_count) (p : string * string) : pair_count :=
  Dict.put co p (match Dict.get co p with Some n => n | None => 0 end + 1).

(** The body of the loop over the groups, for one group. *)
Definition count_group (co : pair_count) (group : list Row) : pair_count :=
  let skills := unique (map element_name group) in
  fold_left (fun co p => incr co (sorted_pair (fst p) (snd p)))
            (index_pairs skills) co.

(** The loop over the groups, in the order they are given. *)
Definition count_groups (grouped : list (string * list Row)) : pair_count :=
  fold_left (fun co g => count_group co (snd g)) grouped [].

Definition co_occurrence (df : DataFrame) : pair_count :=
  count_groups (groupby Element_ID (rows df)).

(** ** The graph *)

(** The value of a node's [region] attribute. *)
Inductive region_attr : Type :=
| NoAttr               (* the node was made by [add_edge]: no attribute *)
| PyNone               (* [region=None] *)
| Region (c : cell).   (* [region=regions[0]] *)

(** Per node: its attribute and its adjacency dict, neighbour to weight. *)
Definition Graph := Dict.t string (region_attr * Dict.t string nat).

Definition empty_graph : Graph := [].

(** [G.add_node(n, region=a)] *)
Definition add_node (G : Graph) (n : string) (a : region_attr) : Graph :=
  match Dict.get G n with
  | None => Dict.put G n (a, [])
  | Some (_, nbrs) => Dict.put G n (a, nbrs)
  end.

(** [G._adj[u][v] = {'weight': w}] for a node [u] of [G] *)
Definition set_adj (G : Graph) (u v : string) (w : nat) : Graph :=
  match Dict.get G u with
  | None => G
  | Some (a, nbrs) => Dict.put G u (a, Dict.put nbrs v w)
  end.

(** [if u not in self._node: self._adj[u] = {}; self._node[u] = {}] *)
Definition ensure_node (G : Graph) (u : string) : Graph :=
  if Dict.mem G u then G else Dict.put G u (NoAttr, []).

(** [G.add_edge(u, v, weight=w)] *)
Definition add_edge (G : Graph) (u v : string) (w : nat) : Graph :=
  let G2 := ensure_node (ensure_node G u) v in
  set_adj (set_adj G2 u v w) v u w.

(** Lines 65-66: the region attribute given to [skill]. *)
Definition node_region (df : DataFrame) (skill : string) : region_attr :=
  let regions :=
    if in_columns "Region" df
    then Some (unique (map region
                 (filter (fun r => String.eqb (element_name r) skill)
                         (rows df))))
    else None in
  match regions with
  | Some (r0 :: _) => Region r0
  | _ => PyNone
  end.

Definition unique_skills (df : DataFrame) : list string :=
  unique (map element_name (rows df)).

Definition add_nodes (df : DataFrame) (G : Graph) : Graph :=
  fold_left (fun G skill => add_node G skill (node_region df skill))
            (unique_skills df) G.

Definition add_edges (co : pair_count) (G : Graph) : Graph :=
  fold_left (fun G e => add_edge G (fst (fst e)) (snd (fst e)) (snd e))
            (Dict.items co) G.

Definition create_weighted_skill_graph (df : DataFrame) : Graph :=
  add_edges (co_occurrence df) (add_nodes df empty_graph).

(** [s in G.nodes], [G[s]] and the weight of the edge between two nodes. *)
Definition has_node (G : Graph) (s : string) : bool := Dict.mem G s.

Definition neighbors (G : Graph) (s : string) : option (Dict.t string nat) :=
  option_map snd (Dict.get G s).

Definition weight (G : Graph) (a b : string) : option nat :=
  match neighbors G a with
  | Some nbrs => Dict.get nbrs b
  | None => None
  end.

(** ** The neighbour query (lines 129-144) *)

(** What a call hands back to its caller. *)
Inductive result (A : Type) : Type :=
| Return (v : A)
| Raise (exception : string).
Arguments Return {A} v.
Arguments Raise {A} exception.

(** Whether a call ended with an exception. *)
Definition raised {A} (r : result A) : bool :=
  match r with
  | Return _ => false
  | Raise _ => true
  end.

(** [str.strip()] on ASCII text. *)
Definition is_space (c : ascii) : bool :=
  let n := nat_of_ascii c in
  (Nat.leb 9 n && Nat.leb n 13) || (Nat.leb 28 n && Nat.leb n 32).

Fixpoint lstrip (s : string) : string :=
  match s with
  | EmptyString => EmptyString
  | String c s' => if is_space c then lstrip s' else s
  end.

Fixpoint rstrip (s : string) : string :=
  match s with
  | EmptyString => EmptyString
  | String c s' =>
      match rstrip s' with
      | EmptyString => if is_space c then EmptyString else String c EmptyString
      | r => String c r
      end
  end.

Definition strip (s : string) : string := rstrip (lstrip s).

(** [sorted(items, key=weight, reverse=True)]: stable, heaviest first. *)
Fixpoint insert_desc (x : string * nat) (l : list (string * nat))
  : list (string * nat) :=
  match l with
  | [] => [x]
  | y :: l' => if Nat.leb (snd y) (snd x) then x :: l else y :: insert_desc x l'
  end.

Definition sorted_by_weight (l : list (string * nat)) : list (string * nat) :=
  fold_right insert_desc [] l.

(** Lines 136-137 on the adjacency dict [G[skill_id]]. *)
Definition sorted_neighbors (nbrs : Dict.t string nat) : list (string * nat) :=
  sorted_by_weight (Dict.items nbrs).

Definition top_neighbors (nbrs : Dict.t string nat) : list (string * nat) :=
  firstn 10 (sorted_neighbors nbrs).

Definition nl : string := String (ascii_of_nat 10) EmptyString.

Definition str_of_nat (n : nat) : string :=
  NilEmpty.string_of_uint (Nat.to_uint n).

Definition neighbor_line (e : string * nat) : string :=
  "- " ++ fst e ++ " (Co-occurrence weight: " ++ str_of_nat (snd e) ++ ")".

(** The texts of lines 139-144 for the entries [top], in print order. *)
Definition query_output (skill_id : string) (top : list (string * nat))
  : list string :=
  (nl ++ "Top related skills for " ++ skill_id ++ ":")
    :: List.app (map neighbor_line top)
         [nl ++ "Job types for these skill pairs: [Feature to be implemented]" ++ nl].

(** [user_interface(G)] when the user types [line]: the texts given to
    [print], in order, and what the call hands back. *)
Definition user_interface (G : Graph) (line : string)
  : list string * result unit :=
  let skill_id := strip line in
  match Dict.get G skill_id with
  | None => (["Skill ID not found in the network."], Return tt)
  | Some (_, neighbors) =>
      (query_output skill_id (top_neighbors neighbors), Return tt)
  end.

(** ** Regional insights (lines 86-93) *)

(** The value stored under ['job_types_by_region']. *)
Inductive insights : Type :=
| RegionCounts (counts : Dict.t string nat)
| Message (text : string).

(** [Series.nunique()]: the number of distinct values that are not missing. *)
Definition nunique (l : list cell) : nat := List.length (unique (dropna l)).

Definition get_regional_insights (df : DataFrame) : result insights :=
  if in_columns "Region" df then
    if in_columns "JobType" df then
      Return (RegionCounts
                (map (fun g => (fst g, nunique (map job_type (snd g))))
                     (groupby region (rows df))))
    else Raise "KeyError: 'Column not found: JobType'"
  else Return (Message "No regional data available.").

(** ** Notions of the specification, written from its words *)

(** The number of distinct job types (values of ['Element ID']) that have
    a row for skill [a] and a row for skill [b]. *)
Definition mentions (rs : list Row) (e s : string) : bool :=
  existsb (fun r => String.eqb (element_id r) e && String.eqb (element_name r) s) rs.

Definition groups_with_both (df : DataFrame) (a b : string) : nat :=
  List.length (filter (fun e => mentions (rows df) e a && mentions (rows df) e b)
                 (unique (map element_id (rows df)))).

(** The first region value that is not empty among the rows of [s], in
    row order; [None] when there is none. *)
Definition nonempty (c : cell) : bool :=
  match c with
  | NaN => false
  | Str s => negb (String.eqb s "")
  end.

Definition first_nonempty_region (df : DataFrame) (s : string) : option cell :=
  option_map region
    (find (fun r => String.eqb (element_name r) s && nonempty (region r))
          (rows df)).

(** The first row of [s], in row order. *)
Definition first_row (df : DataFrame) (s : string) : option Row :=
  find (fun r => String.eqb (element_name r) s) (rows df).

(** [regionJobTypeCounts]: for every region, the number of distinct
    ['Element ID'] values among its rows. *)
Definition region_job_type_counts (df : DataFrame) : Dict.t string nat :=
  map (fun g => (fst g, List.length (unique (map element_id (snd g)))))
      (groupby region (rows df)).

(** Two frames in which every job type mentions the same skills: they
    differ at most in repeated rows, row order and optional columns. *)
Definition same_mentions (df df' : DataFrame) : Prop :=
  forall e s, mentions (rows df) e s = mentions (rows df') e s.

(** ** Sample frames *)

Definition mkrow (e n : string) (r : cell) : Row :=
  {| element_id := e; element_name := n; region := r; job_type := NaN |}.

(** The example of the specification: jobs 1 and 2 over skills A, B, C. *)
Definition spec_example : DataFrame :=
  {| columns := ["Element ID"; "Element Name"];
     rows := [mkrow "1" "A" NaN; mkrow "1" "B" NaN; mkrow "1" "C" NaN;
              mkrow "2" "A" NaN; mkrow "2" "B" NaN] |}.

(** The same job types and skills as [spec_example], with repeated
    rows in another order. *)
Definition repeated_rows : DataFrame :=
  {| columns := ["Element ID"; "Element Name"];
     rows := [mkrow "2" "B" NaN; mkrow "1" "A" NaN; mkrow "1" "A" NaN;
              mkrow "1" "B" NaN; mkrow "2" "A" NaN; mkrow "1" "C" NaN;
              mkrow "2" "B" NaN; mkrow "1" "B" NaN] |}.

(** One job whose rows list the skills out of alphabetical order. *)
Definition unordered_job : DataFrame :=
  {| columns := ["Element ID"; "Element Name"];
     rows := [mkrow "1" "A" NaN; mkrow "1" "C" NaN; mkrow "1" "B" NaN] |}.

(** A skill whose first row has no region and whose second row has one. *)
Definition late_region : DataFrame :=
  {| columns := ["Element ID"; "Element Name"; "Region"];
     rows := [mkrow "1" "A" NaN; mkrow "2" "A" (Str "West")] |}.

(** A frame with the documented columns and a region. *)
Definition one_region : DataFrame :=
  {| columns := ["Element ID"; "Element Name"; "Region"];
     rows := [mkrow "J1" "A" (Str "West")] |}.

(** A frame that has a ['JobType'] column; one row has no region. *)
Definition with_job_type : DataFrame :=
  {| columns := ["Element ID"; "Element Name"; "Region"; "JobType"];
     rows := [ {| element_id := "1"; element_name := "A";
                  region := Str "West"; job_type := Str "nurse" |};
               {| element_id := "2"; element_name := "B";
                  region := Str "East"; job_type := Str "clerk" |};
               {| element_id := "3"; element_name := "A";
                  region := Str "West"; job_type := Str "clerk" |};
               {| element_id := "4"; element_name := "C";
                  region := NaN; job_type := Str "pilot" |};
               {| element_id := "5"; element_name := "C";
                  region := Str "West"; job_type := Str "nurse" |} ] |}.

(** Job 1 asks for twelve skills, job 2 for the first and the last. *)
Definition twelve_skills : DataFrame :=
  {| columns := ["Element ID"; "Element Name"];
     rows := map (fun n => mkrow "1" n NaN)
               ["a"; "b"; "c"; "d"; "e"; "f"; "g"; "h"; "i"; "j"; "k"; "l"]
             ++ [mkrow "2" "a" NaN; mkrow "2" "l" NaN] |}.

(** ** Auxiliary notions for the proofs *)

(** [co[p]] on a [defaultdict(int)], read without inserting. *)
Definition getd (co : pair_count) (p : string * string) : nat :=
  match Dict.get co p with Some n => n | None => 0 end.

Definition count {A} `{EqKey A} (x : A) (l : list A) : nat :=
  List.length (filter (keqb x) l).

Definition inb {A} `{EqKey A} (x : A) (l : list A) : bool :=
  existsb (keqb x) l.

(** The keys the two inner loops increment for a list of skills. *)
Definition canonical_pairs (l : list string) : list (string * string) :=
  map (fun p => sorted_pair (fst p) (snd p)) (index_pairs l).

(** The keys one group increments, in loop order. *)
Definition group_pairs (group : list Row) : list (string * string) :=
  canonical_pairs (unique (map element_name group)).

(** The keys the whole loop increments, in order. *)
Definition all_pairs (grouped : list (string * list Row))
  : list (string * string) :=
  flat_map (fun g => group_pairs (snd g)) grouped.

(** The order [sorted(..., reverse=True)] establishes on the weights. *)
Definition heavier_first (x y : string * nat) : Prop := snd y <= snd x.

(** [x] comes somewhere before [y] in [l]. *)
Definition precedes {A} (x y : A) (l : list A) : Prop :=
  exists l1 l2 l3, l = (l1 ++ x :: l2 ++ y :: l3)%list.

(** The order the specification asks of the query result: heavier
    first, equal weights by ascending identifier. *)
Definition weight_then_name (x y : string * nat) : Prop :=
  snd y < snd x \/ (snd y = snd x /\ String.ltb (fst x) (fst y) = true).

(** [len(G[s])], the number of neighbours of a node. *)
Definition degree (nbrs : Dict.t string nat) : nat :=
  List.length (Dict.items nbrs).

(** A key as [sorted] leaves it: two distinct skills, the smaller first. *)
Definition canonical (p : string * string) : Prop :=
  String.ltb (fst p) (snd p) = true.

(** The [region] attribute of a node: [G.nodes[s]]. *)
Definition node_attr (G : Graph) (s : string) : option region_attr :=
  option_map fst (Dict.get G s).

(** ** Reading the file (lines 21-33) *)

(** What [print] is given: a text, the data frame, or a label followed
    by the column index of the frame. *)
Inductive printed : Type :=
| Text (s : string)
| Frame (df : DataFrame)
| Labelled (label : string) (cols : list string).

Definition required_columns : list string := ["Element ID"; "Element Name"].

(** The loop of lines 27-29: the first required column that is missing
    raises [ValueError]. *)
Fixpoint check_required (cols : list string) (df : DataFrame) : result unit :=
  match cols with
  | [] => Return tt
  | col :: rest =>
      if in_columns col df then check_required rest df
      else Raise ("Missing required column: " ++ col)
  end.

(** [parse_skill_data(file_path)], given what [pd.read_csv(file_path)]
    does: the frame it returns or the exception it raises.  The result
    is what was printed and the returned frame, [None] for Python's
    [None]. *)
Definition parse_skill_data (read : result DataFrame)
  : list printed * option DataFrame :=
  match read with
  | Raise e => ([Text ("Error parsing skill data: " ++ e)], None)
  | Return df =>
      let shown := [Frame df; Labelled "Columns in the file:" (columns df)] in
      match check_required required_columns df with
      | Return _ => (shown, Some df)
      | Raise e =>
          (List.app shown [Text ("Error parsing skill data: " ++ e)], None)
      end
  end.

(** ** Further notions for the proofs *)


(** Every adjacency dict lists a neighbour once. *)
Definition adj_nodup (G : Graph) : Prop :=
  forall s a nbrs, Dict.get G s = Some (a, nbrs) -> NoDup (Dict.keys nbrs).

(** The order [groupby] gives the group keys. *)
Definition key_le (k k' : string) : Prop := String.leb k k' = true.

(** ** The edges handed to the drawing (lines 109-110) *)

(** [G.edges(data=True)]: the nodes in order, their neighbours in
    order; an edge is reported from the first of its ends, the nodes
    already visited being [seen]. *)
Fixpoint edges_from (seen : list string) (G : Graph)
  : list (string * string * nat) :=
  match G with
  | [] => []
  | (n, (_, nbrs)) :: G' =>
      List.app
        (map (fun e => (n, fst e, snd e))
             (filter (fun e => negb (inb (fst e) seen)) (Dict.items nbrs)))
        (edges_from (n :: seen) G')
  end.

Definition edges (G : Graph) : list (string * string * nat) :=
  edges_from [] G.

(** [weights = [data['weight'] for (_, _, data) in edges]] *)
Definition edge_weights (G : Graph) : list nat := map snd (edges G).

(** An edge under the key its two ends have in [co_occurrence]. *)
Definition canon_edge (e : string * string * nat) : (string * string) * nat :=
  (sorted_pair (fst (fst e)) (snd (fst e)), snd e).

(** * Properties *)

Open Scope list_scope.

(** ** Dictionaries *)

Module DictFacts.
Section Facts.
Context {K V : Type} `{EqKey K}.
Implicit Types (d : Dict.t K V) (k : K) (v : V).

Lemma keqb_refl k : keqb k k = true.
Proof. destruct (keqb_spec k k); congruence. Qed.

Lemma keqb_neq k k' : k <> k' -> keqb k k' = false.
Proof. intros ?; destruct (keqb_spec k k'); congruence. Qed.

Lemma get_put_same d k v : Dict.get (Dict.put d k v) k = Some v.
Proof.
  induction d as [|[k' v'] d IH]; simpl.
  - now rewrite keqb_refl.
  - destruct (keqb_spec k k') as [->|Hne]; simpl.
    + now rewrite keqb_refl.
    + now rewrite (keqb_neq _ _ Hne).
Qed.

Lemma get_put_other d k k' v :
  k <> k' -> Dict.get (Dict.put d k v) k' = Dict.get d k'.
Proof.
  intros Hne; induction d as [|[k0 v0] d IH]; simpl.
  - rewrite keqb_neq; auto.
  - destruct (keqb_spec k k0) as [->|Hne0]; simpl.
    + rewrite (keqb_neq k' k0); auto.
    + now rewrite IH.
Qed.

Lemma get_None_keys d k : Dict.get d k = None <-> ~ In k (Dict.keys d).
Proof.
  induction d as [|[k0 v0] d IH]; simpl.
  - tauto.
  - destruct (keqb_spec k k0) as [->|Hne].
    + split; [discriminate | intros Hn; exfalso; apply Hn; now left].
    + rewrite IH. split; [intros Hn [E|I]; congruence | tauto].
Qed.

Lemma get_Some_In d k v : Dict.get d k = Some v -> In (k, v) d.
Proof.
  induction d as [|[k0 v0] d IH]; simpl; [discriminate|].
  destruct (keqb_spec k k0) as [->|Hne]; intros E.
  - injection E as ->. now left.
  - right; auto.
Qed.

Lemma In_get_Some d k v :
  NoDup (Dict.keys d) -> In (k, v) d -> Dict.get d k = Some v.
Proof.
  induction d as [|[k0 v0] d IH]; simpl; [tauto|].
  intros Hnd [E|I].
  - injection E as -> ->. now rewrite keqb_refl.
  - inversion Hnd as [|? ? Hnotin Hnd']; subst.
    destruct (keqb_spec k k0) as [->|Hne]; auto.
    exfalso; apply Hnotin. change (In (fst (k0, v)) (map fst d)).
    now apply in_map.
Qed.

Lemma mem_true_iff d k : Dict.mem d k = true <-> In k (Dict.keys d).
Proof.
  unfold Dict.mem. destruct (Dict.get d k) eqn:E.
  - split; auto. intros _. apply get_Some_In in E.
    change k with (fst (k, v)). now apply in_map.
  - apply get_None_keys in E. split; [discriminate | tauto].
Qed.

Lemma keys_put d k v :
  Dict.keys (Dict.put d k v) =
  if Dict.mem d k then Dict.keys d else Dict.keys d ++ [k].
Proof.
  unfold Dict.mem. induction d as [|[k0 v0] d IH]; simpl; auto.
  destruct (keqb_spec k k0) as [->|Hne]; simpl; auto.
  rewrite IH. now destruct (Dict.get d k).
Qed.

Lemma NoDup_keys_put d k v :
  NoDup (Dict.keys d) -> NoDup (Dict.keys (Dict.put d k v)).
Proof.
  intros Hnd. rewrite keys_put. destruct (Dict.mem d k) eqn:E; auto.
  apply NoDup_app; auto.
  - repeat constructor; simpl; tauto.
  - intros x Hx [<-|[]]. apply mem_true_iff in Hx. congruence.
Qed.

Lemma In_keys_put d k v x :
  In x (Dict.keys (Dict.put d k v)) <-> x = k \/ In x (Dict.keys d).
Proof.
  rewrite keys_put. destruct (Dict.mem d k) eqn:E.
  - apply mem_true_iff in E. split; [tauto | intros [->|]; auto].
  - rewrite in_app_iff; simpl. intuition congruence.
Qed.
End Facts.
End DictFacts.
Import DictFacts.

(** ** [unique], [sort_keys] and [groupby] *)

Section Unique.
Context {A : Type} `{EqKey A}.

Lemma In_unique (l : list A) x : In x (unique l) <-> In x l.
Proof.
  induction l as [|y l IH]; simpl; [tauto|].
  rewrite filter_In, IH.
  destruct (keqb_spec y x) as [->|Hne]; simpl; intuition congruence.
Qed.

Lemma NoDup_unique (l : list A) : NoDup (unique l).
Proof.
  induction l as [|y l IH]; simpl; constructor.
  - rewrite filter_In. intros [_ E]. now rewrite keqb_refl in E.
  - now apply NoDup_filter.
Qed.
End Unique.

Lemma insert_key_perm k l : Permutation (k :: l) (insert_key k l).
Proof.
  induction l as [|k' l IH]; simpl; auto.
  destruct (String.leb k k'); auto.
  rewrite perm_swap. now constructor.
Qed.

Lemma sort_keys_perm l : Permutation l (sort_keys l).
Proof.
  induction l as [|k l IH]; simpl; auto.
  rewrite <- insert_key_perm. now constructor.
Qed.

(** ** The order on skill identifiers *)

Lemma ltb_asym x y : String.ltb x y = true -> String.ltb y x = false.
Proof.
  unfold String.ltb. rewrite (String.compare_antisym x y).
  destruct (String.compare y x); simpl; congruence.
Qed.

Lemma ltb_irrefl x : String.ltb x x = false.
Proof.
  destruct (String.ltb x x) eqn:E; auto.
  pose proof (ltb_asym _ _ E). congruence.
Qed.

Lemma ltb_total x y : x <> y -> String.ltb y x = false -> String.ltb x y = true.
Proof.
  unfold String.ltb. intros Hne. rewrite (String.compare_antisym x y).
  destruct (String.compare y x) eqn:E; simpl; try congruence.
  apply String.compare_eq_iff in E. congruence.
Qed.

Lemma sorted_pair_spec x y a b :
  x <> y ->
  sorted_pair x y = (a, b) <->
  String.ltb a b = true /\ ((x = a /\ y = b) \/ (x = b /\ y = a)).
Proof.
  intros Hne. unfold sorted_pair.
  destruct (String.ltb y x) eqn:E; split.
  - intros [= <- <-]. auto.
  - intros [Hlt [[<- <-]|[<- <-]]]; auto.
    apply ltb_asym in Hlt. congruence.
  - intros [= <- <-]. split; auto using ltb_total.
  - intros [Hlt [[<- <-]|[<- <-]]]; auto. congruence.
Qed.

(** ** Counting occurrences *)

Section Count.
Context {A : Type} `{EqKey A}.

Lemma count_cons (x y : A) l :
  count x (y :: l) = (if keqb x y then 1 else 0) + count x l.
Proof. unfold count. simpl. now destruct (keqb x y). Qed.

Lemma count_app (x : A) l l' : count x (l ++ l') = count x l + count x l'.
Proof. unfold count. now rewrite filter_app, length_app. Qed.

Lemma inb_In (x : A) l : inb x l = true <-> In x l.
Proof.
  unfold inb. rewrite existsb_exists. split.
  - intros [y [Hy E]]. destruct (keqb_spec x y); congruence.
  - intros Hx. exists x. split; auto. apply keqb_refl.
Qed.

Lemma count_notin (x : A) l : ~ In x l -> count x l = 0.
Proof.
  unfold count. induction l as [|y l IH]; simpl; auto.
  intros Hn. destruct (keqb_spec x y) as [->|Hne]; [tauto|].
  apply IH. tauto.
Qed.

Lemma count_NoDup (x : A) l :
  NoDup l -> count x l = if inb x l then 1 else 0.
Proof.
  induction 1 as [|y l Hnotin Hnd IH]; auto.
  unfold count, inb in *. simpl.
  destruct (keqb_spec x y) as [->|Hne]; simpl; auto.
  fold (count y l). now rewrite count_notin.
Qed.

Lemma count_pos_In (x : A) l : 0 < count x l <-> In x l.
Proof.
  unfold count. induction l as [|y l IH]; simpl; [lia|].
  destruct (keqb_spec x y) as [->|Hne]; simpl.
  - split; [auto | lia].
  - rewrite IH. intuition congruence.
Qed.

Lemma count_perm (x : A) l l' : Permutation l l' -> count x l = count x l'.
Proof.
  unfold count. induction 1; simpl; auto.
  - destruct (keqb x x0); simpl; auto.
  - destruct (keqb x x0), (keqb x y); simpl; auto.
  - congruence.
Qed.
End Count.

Lemma filter_length_perm {A} (f : A -> bool) l l' :
  Permutation l l' -> List.length (filter f l) = List.length (filter f l').
Proof.
  induction 1; simpl; auto.
  - destruct (f x); simpl; auto.
  - destruct (f x), (f y); simpl; auto.
  - congruence.
Qed.

Lemma count_flat_map {A B} `{EqKey B} (F : A -> list B) (x : B) (l : list A) :
  (forall g, In g l -> NoDup (F g)) ->
  count x (flat_map F l) = List.length (filter (fun g => inb x (F g)) l).
Proof.
  induction l as [|g l IH]; simpl; auto.
  intros Hnd. rewrite count_app, IH by auto.
  rewrite (count_NoDup x (F g)) by auto.
  now destruct (inb x (F g)).
Qed.

(** ** The pairs of one group *)

Lemma In_index_pairs l x y :
  In (x, y) (index_pairs l) -> In x l /\ In y l.
Proof.
  induction l as [|z l IH]; simpl; [tauto|].
  rewrite in_app_iff, in_map_iff. intros [[y' [[= <- <-] Hy]]|Hin]; auto.
  destruct (IH Hin); auto.
Qed.

Lemma index_pairs_distinct l x y :
  NoDup l -> In (x, y) (index_pairs l) -> x <> y.
Proof.
  induction 1 as [|z l Hnotin Hnd IH]; simpl; [tauto|].
  rewrite in_app_iff, in_map_iff. intros [[y' [[= <- <-] Hy]]|Hin]; auto.
  congruence.
Qed.

Lemma index_pairs_complete l x y :
  In x l -> In y l -> x <> y ->
  In (x, y) (index_pairs l) \/ In (y, x) (index_pairs l).
Proof.
  induction l as [|z l IH]; simpl; [tauto|].
  intros [->|Hx] [->|Hy] Hne; try congruence.
  - left. apply in_or_app. left. now apply in_map.
  - right. apply in_or_app. left. now apply in_map.
  - destruct (IH Hx Hy Hne); [left | right]; apply in_or_app; auto.
Qed.

Lemma In_canonical_pairs l a b :
  NoDup l ->
  In (a, b) (canonical_pairs l) <->
  String.ltb a b = true /\ In a l /\ In b l.
Proof.
  intros Hnd. unfold canonical_pairs. rewrite in_map_iff. split.
  - intros [[x y] [E Hin]]. simpl in E.
    pose proof (index_pairs_distinct _ _ _ Hnd Hin) as Hne.
    apply In_index_pairs in Hin. apply sorted_pair_spec in E; auto.
    destruct E as [Hlt [[<- <-]|[<- <-]]]; tauto.
  - intros [Hlt [Ha Hb]].
    assert (Hne : a <> b) by (intros ->; rewrite ltb_irrefl in Hlt; discriminate).
    destruct (index_pairs_complete l a b Ha Hb Hne) as [Hin|Hin].
    + exists (a, b). split; auto. simpl. apply sorted_pair_spec; auto.
    + exists (b, a). split; auto. simpl. apply sorted_pair_spec; auto.
Qed.

Lemma sorted_pair_inj x y y' :
  x <> y -> x <> y' -> sorted_pair x y = sorted_pair x y' -> y = y'.
Proof.
  intros Hy Hy' E. destruct (sorted_pair x y') as [a b] eqn:E'.
  apply sorted_pair_spec in E, E'; auto.
  destruct E as [Hlt [[-> ->]|[-> ->]]], E' as [_ [[E1 E2]|[E1 E2]]]; subst; auto;
    rewrite ltb_irrefl in Hlt; discriminate.
Qed.

Lemma NoDup_canonical_pairs l : NoDup l -> NoDup (canonical_pairs l).
Proof.
  unfold canonical_pairs.
  induction 1 as [|x l Hnotin Hnd IH]; simpl; [constructor|].
  rewrite map_app, map_map. simpl. apply NoDup_app; auto.
  - apply NoDup_map_NoDup_ForallPairs; auto.
    intros y y' Hy Hy'. apply sorted_pair_inj; congruence.
  - intros [a b] Hin1 Hin2.
    apply (In_canonical_pairs l a b Hnd) in Hin2. destruct Hin2 as [_ [Ha Hb]].
    apply in_map_iff in Hin1. destruct Hin1 as [y [E Hy]].
    apply sorted_pair_spec in E; [|congruence].
    destruct E as [_ [[-> _]|[-> _]]]; tauto.
Qed.

(** ** The counting loop *)

Lemma getd_incr co p q :
  getd (incr co p) q = getd co q + (if keqb q p then 1 else 0).
Proof.
  unfold incr, getd. destruct (keqb_spec q p) as [->|Hne].
  - rewrite get_put_same. destruct (Dict.get co p); lia.
  - rewrite get_put_other by congruence. destruct (Dict.get co q); lia.
Qed.

Lemma getd_fold_incr ps co q :
  getd (fold_left incr ps co) q = getd co q + count q ps.
Proof.
  revert co. induction ps as [|p ps IH]; intros co.
  - unfold count; simpl; lia.
  - cbn [fold_left]. rewrite IH, getd_incr, count_cons. lia.
Qed.

Lemma In_keys_fold_incr ps co q :
  In q (Dict.keys (fold_left incr ps co)) <-> In q ps \/ In q (Dict.keys co).
Proof.
  revert co. induction ps as [|p ps IH]; intros co; simpl; [tauto|].
  rewrite IH. unfold incr. rewrite In_keys_put. intuition congruence.
Qed.

Lemma NoDup_keys_fold_incr ps co :
  NoDup (Dict.keys co) -> NoDup (Dict.keys (fold_left incr ps co)).
Proof.
  revert co. induction ps as [|p ps IH]; intros co Hnd; simpl; auto.
  apply IH. unfold incr. now apply NoDup_keys_put.
Qed.

Lemma fold_left_map_arg {A B C} (f : A -> C -> A) (g : B -> C) l a :
  fold_left (fun a x => f a (g x)) l a = fold_left f (map g l) a.
Proof. revert a. induction l; simpl; auto. Qed.

Lemma count_group_pairs co group :
  count_group co group = fold_left incr (group_pairs group) co.
Proof.
  unfold count_group, group_pairs, canonical_pairs.
  apply (fold_left_map_arg incr (fun p => sorted_pair (fst p) (snd p))).
Qed.

Lemma count_groups_all_pairs grouped :
  count_groups grouped = fold_left incr (all_pairs grouped) [].
Proof.
  unfold count_groups, all_pairs. generalize (@nil ((string * string) * nat)).
  induction grouped as [|g gs IH]; intros co; simpl; auto.
  rewrite fold_left_app, IH. now rewrite count_group_pairs.
Qed.

(** What the finished [co_occurrence] dict holds under a key. *)
Lemma get_count_groups grouped q :
  Dict.get (count_groups grouped) q =
  match count q (all_pairs grouped) with
  | 0 => None
  | S n => Some (S n)
  end.
Proof.
  rewrite count_groups_all_pairs.
  pose proof (getd_fold_incr (all_pairs grouped) [] q) as Hd.
  pose proof (In_keys_fold_incr (all_pairs grouped) [] q) as Hk.
  pose proof (count_pos_In q (all_pairs grouped)) as Hc.
  unfold getd in Hd. simpl in Hd, Hk.
  destruct (Dict.get (fold_left incr (all_pairs grouped) []) q) as [n|] eqn:E.
  - assert (In q (Dict.keys (fold_left incr (all_pairs grouped) []))) as Hin.
    { apply get_Some_In in E. change q with (fst (q, n)). now apply in_map. }
    apply Hk in Hin. destruct Hin as [Hin|[]]. apply Hc in Hin.
    destruct (count q (all_pairs grouped)); [lia | now subst].
  - apply get_None_keys in E.
    destruct (count q (all_pairs grouped)) eqn:Ec; auto.
    exfalso. apply E, Hk. left. apply Hc. lia.
Qed.

Lemma NoDup_keys_count_groups grouped : NoDup (Dict.keys (count_groups grouped)).
Proof.
  rewrite count_groups_all_pairs. apply NoDup_keys_fold_incr. constructor.
Qed.

Lemma In_keys_count_groups grouped q :
  In q (Dict.keys (count_groups grouped)) <-> In q (all_pairs grouped).
Proof.
  rewrite count_groups_all_pairs, In_keys_fold_incr. simpl. tauto.
Qed.

(** ** The groups of [groupby] and the job types of the specification *)

Lemma bool_eq_iff (b c : bool) : (b = true <-> c = true) -> b = c.
Proof. destruct b, c; intuition congruence. Qed.

Lemma filter_map_length {A B} (f : B -> bool) (g : A -> B) l :
  List.length (filter f (map g l)) = List.length (filter (fun x => f (g x)) l).
Proof.
  induction l as [|x l IH]; simpl; auto.
  destruct (f (g x)); simpl; auto.
Qed.

Lemma dropna_Element_ID rs : dropna (map Element_ID rs) = map element_id rs.
Proof. induction rs; simpl; congruence. Qed.

Lemma inb_group_names rs k s :
  inb s (unique (map element_name
                   (filter (fun r => keqb (Element_ID r) (Str k)) rs)))
  = mentions rs k s.
Proof.
  apply bool_eq_iff. rewrite inb_In, In_unique, in_map_iff.
  unfold mentions. rewrite existsb_exists.
  split; intros [r Hr]; exists r; rewrite filter_In in *; simpl in *.
  - destruct Hr as [<- [Hin E]]. rewrite E, String.eqb_refl. auto.
  - destruct Hr as [Hin E]. apply andb_prop in E. destruct E as [E1 E2].
    apply String.eqb_eq in E2. auto.
Qed.

Lemma inb_group_pairs rs a b :
  inb (a, b) (group_pairs rs) =
  String.ltb a b && inb a (unique (map element_name rs))
                 && inb b (unique (map element_name rs)).
Proof.
  apply bool_eq_iff. unfold group_pairs.
  rewrite inb_In, In_canonical_pairs by apply NoDup_unique.
  rewrite !andb_true_iff, !inb_In. tauto.
Qed.

Lemma NoDup_group_pairs rs : NoDup (group_pairs rs).
Proof. apply NoDup_canonical_pairs, NoDup_unique. Qed.

Lemma count_all_pairs_groupby df a b :
  count (a, b) (all_pairs (groupby Element_ID (rows df))) =
  if String.ltb a b then groups_with_both df a b else 0.
Proof.
  unfold all_pairs. rewrite count_flat_map by (intros; apply NoDup_group_pairs).
  unfold groupby. rewrite filter_map_length. cbn [snd].
  rewrite dropna_Element_ID.
  rewrite <- (filter_length_perm _ _ _ (sort_keys_perm _)).
  unfold groups_with_both. destruct (String.ltb a b) eqn:Hlt.
  - f_equal. apply filter_ext. intros k.
    now rewrite inb_group_pairs, Hlt, !inb_group_names.
  - rewrite (filter_ext _ (fun _ => false)).
    + now induction (unique (map element_id (rows df))).
    + intros k. now rewrite inb_group_pairs, Hlt.
Qed.

(** The finished dict: a key [(a, b)] is present exactly when [a] sorts
    before [b] and some job type mentions both; its count is the number
    of such job types. *)
Lemma get_co_occurrence df a b :
  Dict.get (co_occurrence df) (a, b) =
  if String.ltb a b
  then match groups_with_both df a b with 0 => None | S n => Some (S n) end
  else None.
Proof.
  unfold co_occurrence. rewrite get_count_groups, count_all_pairs_groupby.
  now destruct (String.ltb a b).
Qed.

(** ** Graph updates *)

Lemma get_set_adj_same G u v w a nbrs :
  Dict.get G u = Some (a, nbrs) ->
  Dict.get (set_adj G u v w) u = Some (a, Dict.put nbrs v w).
Proof. unfold set_adj. intros ->. apply get_put_same. Qed.

Lemma get_set_adj_other G u v w x :
  x <> u -> Dict.get (set_adj G u v w) x = Dict.get G x.
Proof.
  unfold set_adj. intros Hne. destruct (Dict.get G u) as [[a nbrs]|]; auto.
  apply get_put_other. congruence.
Qed.

Lemma keys_set_adj G u v w : Dict.keys (set_adj G u v w) = Dict.keys G.
Proof.
  unfold set_adj. destruct (Dict.get G u) as [[a nbrs]|] eqn:E; auto.
  rewrite keys_put. unfold Dict.mem. now rewrite E.
Qed.

Lemma mem_keys_eq {V V'} (d : Dict.t string V) (d' : Dict.t string V') x :
  Dict.keys d = Dict.keys d' -> Dict.mem d x = Dict.mem d' x.
Proof.
  intros E. apply bool_eq_iff. rewrite !mem_true_iff. now rewrite E.
Qed.

Lemma node_attr_set_adj G u v w x :
  node_attr (set_adj G u v w) x = node_attr G x.
Proof.
  unfold node_attr. destruct (String.eqb_spec x u) as [->|Hne].
  - destruct (Dict.get G u) as [[a nbrs]|] eqn:E.
    + now rewrite (get_set_adj_same _ _ _ _ _ _ E).
    + unfold set_adj. rewrite E. cbv iota. now rewrite E.
  - now rewrite get_set_adj_other.
Qed.

Lemma weight_set_adj G u v w a b :
  Dict.mem G u = true ->
  weight (set_adj G u v w) a b =
  if String.eqb a u && String.eqb b v then Some w else weight G a b.
Proof.
  unfold Dict.mem, weight, neighbors. intros Hmem.
  destruct (Dict.get G u) as [[at_u nbrs]|] eqn:E; [|discriminate].
  destruct (String.eqb_spec a u) as [->|Hne]; simpl.
  - rewrite (get_set_adj_same _ _ _ _ _ _ E), E. simpl.
    destruct (String.eqb_spec b v) as [->|Hne].
    + apply get_put_same.
    + apply get_put_other. congruence.
  - now rewrite get_set_adj_other.
Qed.

Lemma mem_ensure_node G u : Dict.mem (ensure_node G u) u = true.
Proof.
  unfold ensure_node. destruct (Dict.mem G u) eqn:E; auto.
  unfold Dict.mem. now rewrite get_put_same.
Qed.

Lemma mem_ensure_node_mono G u x :
  Dict.mem G x = true -> Dict.mem (ensure_node G u) x = true.
Proof.
  unfold ensure_node. destruct (Dict.mem G u) eqn:E; auto.
  rewrite !mem_true_iff, In_keys_put. auto.
Qed.

Lemma weight_ensure_node G u a b : weight (ensure_node G u) a b = weight G a b.
Proof.
  unfold ensure_node. destruct (Dict.mem G u) eqn:E; auto.
  unfold weight, neighbors. destruct (String.eqb_spec a u) as [->|Hne].
  - rewrite get_put_same. unfold Dict.mem in E.
    now destruct (Dict.get G u).
  - rewrite get_put_other; auto.
Qed.

Lemma add_edge_unfold G u v w :
  add_edge G u v w =
  set_adj (set_adj (ensure_node (ensure_node G u) v) u v w) v u w.
Proof. reflexivity. Qed.

Lemma weight_add_edge G u v w a b :
  weight (add_edge G u v w) a b =
  if (String.eqb a u && String.eqb b v) || (String.eqb a v && String.eqb b u)
  then Some w else weight G a b.
Proof.
  rewrite add_edge_unfold.
  rewrite weight_set_adj.
  2:{ erewrite mem_keys_eq by apply keys_set_adj. apply mem_ensure_node. }
  rewrite weight_set_adj by apply mem_ensure_node_mono, mem_ensure_node.
  rewrite !weight_ensure_node.
  destruct (String.eqb a u && String.eqb b v), (String.eqb a v && String.eqb b u);
    auto.
Qed.

(** Between two nodes of the graph, [add_edge] creates no node and
    touches no attribute. *)
Lemma keys_add_edge G u v w :
  Dict.mem G u = true -> Dict.mem G v = true ->
  Dict.keys (add_edge G u v w) = Dict.keys G.
Proof.
  intros Hu Hv. rewrite add_edge_unfold, !keys_set_adj.
  unfold ensure_node. rewrite Hu, Hv. reflexivity.
Qed.

Lemma node_attr_add_edge G u v w x :
  Dict.mem G u = true -> Dict.mem G v = true ->
  node_attr (add_edge G u v w) x = node_attr G x.
Proof.
  intros Hu Hv. rewrite add_edge_unfold, !node_attr_set_adj.
  unfold ensure_node. rewrite Hu, Hv. reflexivity.
Qed.

(** ** Adding the nodes *)

Section AddNodes.
Variable f : string -> region_attr.

Let step (G : Graph) (s : string) : Graph := add_node G s (f s).

Lemma add_node_fresh G n a :
  Dict.mem G n = false -> add_node G n a = Dict.put G n (a, []).
Proof.
  unfold Dict.mem, add_node. now destruct (Dict.get G n) as [[? ?]|].
Qed.

Lemma fold_add_node l : forall G,
  NoDup l -> (forall x, In x l -> Dict.mem G x = false) ->
  Dict.keys (fold_left step l G) = Dict.keys G ++ l
  /\ (forall s, In s l -> Dict.get (fold_left step l G) s = Some (f s, []))
  /\ (forall s, ~ In s l -> Dict.get (fold_left step l G) s = Dict.get G s).
Proof.
  induction l as [|x l IH]; intros G Hnd Hfresh; simpl.
  - rewrite app_nil_r. repeat split; tauto.
  - inversion Hnd as [|? ? Hnotin Hnd']; subst.
    assert (Hx : step G x = Dict.put G x (f x, [])).
    { apply add_node_fresh, Hfresh. now left. }
    destruct (IH (step G x) Hnd') as [Hk [Hin Hout]].
    + intros y Hy. rewrite Hx. unfold Dict.mem.
      rewrite get_put_other by congruence.
      apply (Hfresh y). now right.
    + rewrite Hx in *. rewrite Hk, keys_put, Hfresh by now left.
      rewrite <- app_assoc. repeat split; auto.
      * intros s [<-|Hs]; auto.
        rewrite Hout by assumption. apply get_put_same.
      * intros s Hs. rewrite Hout by tauto.
        apply get_put_other. tauto.
Qed.
End AddNodes.

Lemma add_nodes_spec df :
  Dict.keys (add_nodes df empty_graph) = unique_skills df
  /\ (forall s, In s (unique_skills df) ->
        Dict.get (add_nodes df empty_graph) s = Some (node_region df s, []))
  /\ (forall s, ~ In s (unique_skills df) ->
        Dict.get (add_nodes df empty_graph) s = None).
Proof.
  apply (fold_add_node (node_region df) (unique_skills df) empty_graph).
  - apply NoDup_unique.
  - reflexivity.
Qed.

Lemma weight_add_nodes df a b : weight (add_nodes df empty_graph) a b = None.
Proof.
  destruct (add_nodes_spec df) as [_ [Hin Hout]].
  unfold weight, neighbors.
  destruct (in_dec string_dec a (unique_skills df)) as [Ha|Ha].
  - now rewrite Hin.
  - now rewrite Hout.
Qed.

(** ** Adding the edges *)

Lemma get_noncanonical (items : pair_count) a b :
  (forall p, In p (Dict.keys items) -> canonical p) ->
  String.ltb b a = true -> Dict.get items (a, b) = None.
Proof.
  intros Hcan Hlt. apply get_None_keys. intros Hin.
  apply Hcan in Hin. unfold canonical in Hin. simpl in Hin.
  apply ltb_asym in Hlt. congruence.
Qed.

Lemma weight_add_edges (items : pair_count) : forall G a b,
  NoDup (Dict.keys items) ->
  (forall p, In p (Dict.keys items) -> canonical p) ->
  weight (add_edges items G) a b =
  match Dict.get items (a, b) with
  | Some w => Some w
  | None => match Dict.get items (b, a) with
            | Some w => Some w
            | None => weight G a b
            end
  end.
Proof.
  unfold add_edges, Dict.items.
  induction items as [|[[u v] w] items IH]; intros G a b Hnd Hcan; auto.
  inversion Hnd as [|? ? Hnotin Hnd']; subst.
  assert (Hcan' : forall p, In p (Dict.keys items) -> canonical p)
    by (intros p Hp; apply Hcan; now right).
  assert (Huv : String.ltb u v = true) by (apply (Hcan (u, v)); now left).
  assert (Hfresh : Dict.get items (u, v) = None) by now apply get_None_keys.
  assert (Hrev : Dict.get items (v, u) = None) by now apply get_noncanonical.
  cbn [fold_left fst snd]. rewrite IH by assumption.
  rewrite weight_add_edge. cbn [Dict.get keqb EqKey_pair EqKey_string fst snd].
  destruct (String.eqb_spec a u), (String.eqb_spec b v),
           (String.eqb_spec a v), (String.eqb_spec b u);
    subst; cbn [andb orb];
    try (rewrite ltb_irrefl in Huv; discriminate);
    rewrite ?Hfresh, ?Hrev; reflexivity.
Qed.

Lemma add_edges_nodes (items : pair_count) : forall G,
  (forall p, In p (Dict.keys items) ->
     Dict.mem G (fst p) = true /\ Dict.mem G (snd p) = true) ->
  Dict.keys (add_edges items G) = Dict.keys G
  /\ forall x, node_attr (add_edges items G) x = node_attr G x.
Proof.
  unfold add_edges, Dict.items.
  induction items as [|[[u v] w] items IH]; intros G Hmem; auto.
  destruct (Hmem (u, v)) as [Hu Hv]; [now left|]. simpl in Hu, Hv.
  cbn [fold_left fst snd].
  destruct (IH (add_edge G u v w)) as [Hk Ha].
  - intros p Hp. rewrite !(mem_keys_eq (add_edge G u v w) G)
      by now apply keys_add_edge.
    apply Hmem. now right.
  - rewrite Hk, keys_add_edge by assumption. split; auto.
    intros x. rewrite Ha. now apply node_attr_add_edge.
Qed.

(** ** The finished dict and the finished graph *)

Lemma groups_with_both_comm df a b :
  groups_with_both df a b = groups_with_both df b a.
Proof.
  unfold groups_with_both. f_equal. apply filter_ext. intros e.
  apply andb_comm.
Qed.

Lemma mentions_In rs e s : mentions rs e s = true -> In s (map element_name rs).
Proof.
  unfold mentions. rewrite existsb_exists. intros [r [Hr E]].
  apply andb_prop in E. destruct E as [_ E]. apply String.eqb_eq in E.
  subst s. now apply in_map.
Qed.

Lemma groups_with_both_pos df a b :
  0 < groups_with_both df a b ->
  In a (unique_skills df) /\ In b (unique_skills df).
Proof.
  unfold groups_with_both, unique_skills.
  destruct (filter _ _) as [|e l] eqn:E; simpl; [lia|]. intros _.
  assert (Hin : In e (e :: l)) by now left.
  rewrite <- E in Hin. apply filter_In in Hin. destruct Hin as [_ Hm].
  apply andb_prop in Hm. destruct Hm as [Ha Hb].
  split; apply In_unique; eauto using mentions_In.
Qed.

Lemma co_occurrence_key df a b :
  In (a, b) (Dict.keys (co_occurrence df)) ->
  canonical (a, b) /\ 0 < groups_with_both df a b.
Proof.
  intros Hin. unfold canonical. simpl.
  destruct (Dict.get (co_occurrence df) (a, b)) eqn:E.
  - rewrite get_co_occurrence in E.
    destruct (String.ltb a b); [|discriminate].
    destruct (groups_with_both df a b); [discriminate|]. split; auto; lia.
  - apply get_None_keys in E. tauto.
Qed.

Lemma co_occurrence_canonical df p :
  In p (Dict.keys (co_occurrence df)) -> canonical p.
Proof. destruct p as [a b]. intros Hin. now apply co_occurrence_key in Hin. Qed.

Lemma co_occurrence_endpoints df p :
  In p (Dict.keys (co_occurrence df)) ->
  In (fst p) (unique_skills df) /\ In (snd p) (unique_skills df).
Proof.
  destruct p as [a b]. intros Hin. apply co_occurrence_key in Hin.
  now apply groups_with_both_pos.
Qed.

Lemma NoDup_keys_co_occurrence df : NoDup (Dict.keys (co_occurrence df)).
Proof. apply NoDup_keys_count_groups. Qed.

(** The weight stored between any two skills of the finished graph. *)
Lemma weight_create df a b :
  weight (create_weighted_skill_graph df) a b =
  if String.eqb a b then None
  else match groups_with_both df a b with 0 => None | S n => Some (S n) end.
Proof.
  unfold create_weighted_skill_graph.
  rewrite weight_add_edges;
    [| apply NoDup_keys_co_occurrence | apply co_occurrence_canonical].
  rewrite !get_co_occurrence, weight_add_nodes.
  rewrite (groups_with_both_comm df b a).
  destruct (String.eqb_spec a b) as [->|Hne].
  - now rewrite ltb_irrefl.
  - destruct (String.ltb a b) eqn:Hab.
    + destruct (groups_with_both df a b); auto.
      now rewrite (ltb_asym _ _ Hab).
    + rewrite (ltb_total b a) by congruence.
      now destruct (groups_with_both df a b).
Qed.

Lemma create_nodes df :
  Dict.keys (create_weighted_skill_graph df) = unique_skills df
  /\ forall s, node_attr (create_weighted_skill_graph df) s =
               node_attr (add_nodes df empty_graph) s.
Proof.
  destruct (add_nodes_spec df) as [Hk _].
  destruct (add_edges_nodes (co_occurrence df) (add_nodes df empty_graph))
    as [Hk' Ha].
  - intros p Hp. apply co_occurrence_endpoints in Hp.
    rewrite !mem_true_iff, Hk. exact Hp.
  - unfold create_weighted_skill_graph. rewrite Hk', Hk. auto.
Qed.

(** ** Sorting the neighbours *)

Lemma insert_desc_perm x l : Permutation (x :: l) (insert_desc x l).
Proof.
  induction l as [|y l IH]; simpl; auto.
  destruct (Nat.leb (snd y) (snd x)); auto.
  rewrite perm_swap. now constructor.
Qed.

Lemma sorted_by_weight_perm l : Permutation l (sorted_by_weight l).
Proof.
  induction l as [|x l IH]; simpl; auto.
  rewrite <- insert_desc_perm. now constructor.
Qed.

Lemma insert_desc_sorted x l :
  StronglySorted heavier_first l -> StronglySorted heavier_first (insert_desc x l).
Proof.
  induction 1 as [|y l Hs IH Hall]; simpl.
  - repeat constructor.
  - destruct (Nat.leb_spec (snd y) (snd x)) as [Hle|Hgt].
    + constructor; [now constructor|].
      constructor; [exact Hle|].
      eapply Forall_impl; [|exact Hall]. unfold heavier_first. intros; lia.
    + constructor; auto.
      eapply Permutation_Forall; [apply insert_desc_perm|].
      constructor; auto. unfold heavier_first. lia.
Qed.

Lemma sorted_by_weight_sorted l : StronglySorted heavier_first (sorted_by_weight l).
Proof.
  induction l; simpl; [constructor | now apply insert_desc_sorted].
Qed.

(** Stability: the entries of one weight keep their order. *)
Lemma insert_desc_stable w x l :
  filter (fun e => Nat.eqb (snd e) w) (insert_desc x l) =
  filter (fun e => Nat.eqb (snd e) w) (x :: l).
Proof.
  induction l as [|y l IH]; auto.
  cbn [insert_desc]. destruct (Nat.leb_spec (snd y) (snd x)) as [Hle|Hgt]; auto.
  cbn [filter] in *. rewrite IH.
  destruct (Nat.eqb_spec (snd y) w), (Nat.eqb_spec (snd x) w); auto. lia.
Qed.

Lemma sorted_by_weight_stable w l :
  filter (fun e => Nat.eqb (snd e) w) (sorted_by_weight l) =
  filter (fun e => Nat.eqb (snd e) w) l.
Proof.
  induction l as [|x l IH]; auto.
  cbn [sorted_by_weight fold_right]. rewrite insert_desc_stable.
  cbn [filter]. fold (sorted_by_weight l). now rewrite IH.
Qed.

Lemma StronglySorted_firstn {A} (R : A -> A -> Prop) n l :
  StronglySorted R l -> StronglySorted R (firstn n l).
Proof.
  revert n. induction l as [|x l IH]; intros [|n] Hs; simpl; try constructor.
  - apply IH. now inversion Hs.
  - inversion Hs as [|? ? _ Hall]; subst.
    rewrite Forall_forall in *. intros y Hy. apply Hall.
    rewrite <- (firstn_skipn n l). apply in_or_app. now left.
Qed.

Section Precedes.
Context {A : Type}.
Implicit Types (x y : A) (l : list A).

Lemma precedes_cons a x y l : precedes x y l -> precedes x y (a :: l).
Proof. intros (l1 & l2 & l3 & ->). now exists (a :: l1), l2, l3. Qed.

Lemma precedes_firstn n x y l : precedes x y (firstn n l) -> precedes x y l.
Proof.
  intros (l1 & l2 & l3 & E). exists l1, l2, (l3 ++ skipn n l).
  rewrite <- (firstn_skipn n l) at 1. rewrite E.
  now rewrite <- !app_assoc, <- !app_comm_cons, <- !app_assoc.
Qed.

Lemma precedes_filter (f : A -> bool) x y l :
  precedes x y (filter f l) -> precedes x y l.
Proof.
  induction l as [|a l IH]; simpl.
  - intros (l1 & l2 & l3 & E). now destruct l1.
  - destruct (f a); [|intros; now apply precedes_cons, IH].
    intros ([|b l1] & l2 & l3 & E).
    + injection E as -> E.
      assert (Hy : In y l).
      { assert (In y (filter f l)) as Hin
          by (rewrite E; apply in_or_app; right; now left).
        now apply filter_In in Hin. }
      apply in_split in Hy. destruct Hy as (l2' & l3' & ->).
      now exists [], l2', l3'.
    + injection E as -> E. apply precedes_cons, IH. now exists l1, l2, l3.
Qed.

Lemma precedes_into_filter (f : A -> bool) x y l :
  f x = true -> f y = true -> precedes x y l -> precedes x y (filter f l).
Proof.
  intros Hx Hy (l1 & l2 & l3 & ->).
  exists (filter f l1), (filter f l2), (filter f l3).
  rewrite filter_app. simpl. rewrite Hx, filter_app. simpl. now rewrite Hy.
Qed.
End Precedes.

Lemma sorted_neighbors_keeps_ties nbrs x y :
  snd x = snd y ->
  precedes x y (sorted_neighbors nbrs) -> precedes x y (Dict.items nbrs).
Proof.
  intros Hw Hp. unfold sorted_neighbors in Hp.
  apply (precedes_into_filter (fun e => Nat.eqb (snd e) (snd x))) in Hp.
  - rewrite sorted_by_weight_stable in Hp. now apply precedes_filter in Hp.
  - apply Nat.eqb_refl.
  - rewrite Hw. apply Nat.eqb_refl.
Qed.

(** ** The example of the specification *)

Example co_occurrence_spec_example :
  co_occurrence spec_example = [(("A", "B"), 2); (("A", "C"), 1); (("B", "C"), 1)].
Proof. reflexivity. Qed.

Example neighbors_spec_example :
  neighbors (create_weighted_skill_graph spec_example) "A"
  = Some [("B", 2); ("C", 1)].
Proof. reflexivity. Qed.

Example user_interface_spec_example :
  user_interface (create_weighted_skill_graph spec_example) "  A "
  = (query_output "A" [("B", 2); ("C", 1)], Return tt).
Proof. reflexivity. Qed.

(** ** Edge weights (C1) *)

Lemma In_ids_mentions rs e :
  In e (map element_id rs) <-> exists s, mentions rs e s = true.
Proof.
  unfold mentions. rewrite in_map_iff. split.
  - intros [r [<- Hr]]. exists (element_name r). apply existsb_exists.
    exists r. now rewrite !String.eqb_refl.
  - intros [s Hs]. apply existsb_exists in Hs. destruct Hs as [r [Hr E]].
    apply andb_prop in E. destruct E as [E _]. apply String.eqb_eq in E. eauto.
Qed.

Lemma groups_with_both_same_mentions df df' a b :
  same_mentions df df' -> groups_with_both df a b = groups_with_both df' a b.
Proof.
  intros Hsame. unfold groups_with_both.
  rewrite (filter_ext _ (fun e => mentions (rows df') e a && mentions (rows df') e b))
    by (intros e; now rewrite !Hsame).
  apply filter_length_perm, NoDup_Permutation; try apply NoDup_unique.
  intros e. rewrite !In_unique, !In_ids_mentions.
  split; intros [s Hs]; exists s; now rewrite Hsame in * || rewrite <- Hsame in *.
Qed.

(** C1. In the graph built by [create_weighted_skill_graph], the weight
    of an edge between [a] and [b] is the number of distinct job types
    (values of ['Element ID']) that mention both skills.  Repeating
    rows does not change it: any frame whose job types mention the same
    skills gives the same weight. *)
Theorem edge_weight_counts_job_types df a b w :
  weight (create_weighted_skill_graph df) a b = Some w ->
  w = groups_with_both df a b
  /\ forall df', same_mentions df df' ->
       weight (create_weighted_skill_graph df') a b = Some w.
Proof.
  intros Hw.
  assert (Hcount : w = groups_with_both df a b).
  { rewrite weight_create in Hw. destruct (String.eqb a b); [discriminate|].
    destruct (groups_with_both df a b); congruence. }
  split; auto. intros df' Hsame.
  rewrite weight_create in *.
  now rewrite <- (groups_with_both_same_mentions df df' a b Hsame).
Qed.

Lemma edge_weight_counts_job_types_witness :
  2 = groups_with_both repeated_rows "A" "B"
  /\ forall df', same_mentions repeated_rows df' ->
       weight (create_weighted_skill_graph df') "A" "B" = Some 2.
Proof.
  apply (edge_weight_counts_job_types repeated_rows "A" "B" 2). reflexivity.
Defined.

(** ** Order of the groups (C7) *)

Lemma all_pairs_perm gs gs' :
  Permutation gs gs' -> Permutation (all_pairs gs) (all_pairs gs').
Proof.
  unfold all_pairs. induction 1; simpl; auto.
  - now apply Permutation_app_head.
  - apply Permutation_app_swap_app.
  - eapply perm_trans; eauto.
Qed.

(** C7. Visiting the job-type groups in another order leaves the
    co-occurrence dict unchanged as a mapping: every pair has the same
    count (or is absent in both), and the graph built from it has the
    same weight between any two skills. *)
Theorem group_order_irrelevant df grouped' :
  Permutation (groupby Element_ID (rows df)) grouped' ->
  (forall p, Dict.get (count_groups grouped') p = Dict.get (co_occurrence df) p)
  /\ (forall a b,
        weight (add_edges (count_groups grouped') (add_nodes df empty_graph)) a b
        = weight (create_weighted_skill_graph df) a b).
Proof.
  intros Hperm.
  assert (Hget : forall p, Dict.get (count_groups grouped') p
                           = Dict.get (co_occurrence df) p).
  { intros p. unfold co_occurrence. rewrite !get_count_groups.
    now rewrite (count_perm p _ _ (all_pairs_perm _ _ Hperm)). }
  split; auto. intros a b. unfold create_weighted_skill_graph.
  rewrite !weight_add_edges;
    try apply NoDup_keys_count_groups; try apply co_occurrence_canonical.
  - now rewrite !Hget.
  - intros p Hp. apply (co_occurrence_canonical df). unfold co_occurrence.
    rewrite In_keys_count_groups in *.
    eapply Permutation_in; [apply Permutation_sym, all_pairs_perm, Hperm | exact Hp].
Qed.

Lemma group_order_irrelevant_witness :
  (forall p, Dict.get (count_groups (List.rev (groupby Element_ID (rows spec_example)))) p
             = Dict.get (co_occurrence spec_example) p)
  /\ (forall a b,
        weight (add_edges (count_groups (List.rev (groupby Element_ID (rows spec_example))))
                          (add_nodes spec_example empty_graph)) a b
        = weight (create_weighted_skill_graph spec_example) a b).
Proof.
  apply (group_order_irrelevant spec_example). apply Permutation_rev.
Defined.

(** ** No self-loop (C8) *)

(** C8. The built graph has no self-loop: no key of the co-occurrence
    dict pairs a skill with itself, and no node is its own neighbour. *)
Theorem no_self_loops df :
  (forall a b w, In ((a, b), w) (Dict.items (co_occurrence df)) -> a <> b)
  /\ (forall a, weight (create_weighted_skill_graph df) a a = None).
Proof.
  split.
  - intros a b w Hin ->.
    assert (Hk : In (b, b) (Dict.keys (co_occurrence df)))
      by (change (b, b) with (fst ((b, b), w)); now apply in_map).
    apply co_occurrence_canonical in Hk. unfold canonical in Hk. simpl in Hk.
    rewrite ltb_irrefl in Hk. discriminate.
  - intros a. rewrite weight_create. now rewrite String.eqb_refl.
Qed.

Lemma no_self_loops_witness :
  "A" <> "B" /\ weight (create_weighted_skill_graph spec_example) "A" "A" = None.
Proof.
  destruct (no_self_loops spec_example) as [Hkeys Hloop]. split.
  - apply (Hkeys "A" "B" 2). simpl. auto.
  - apply Hloop.
Defined.

(** ** Symmetry (C9) *)

Lemma weight_sym df a b :
  weight (create_weighted_skill_graph df) a b =
  weight (create_weighted_skill_graph df) b a.
Proof.
  rewrite !weight_create, (groups_with_both_comm df b a), (String.eqb_sym b a).
  reflexivity.
Qed.

Lemma weight_listed G a b w :
  weight G a b = Some w ->
  exists nbrs,
    neighbors G a = Some nbrs
    /\ In (b, w) (sorted_neighbors nbrs)
    /\ (degree nbrs <= 10 -> In (b, w) (top_neighbors nbrs)).
Proof.
  unfold weight. destruct (neighbors G a) as [nbrs|]; [|discriminate].
  intros Hget. exists nbrs. split; auto.
  apply get_Some_In in Hget.
  assert (Hin : In (b, w) (sorted_neighbors nbrs))
    by (eapply Permutation_in; [apply sorted_by_weight_perm | exact Hget]).
  split; auto. intros Hdeg. unfold top_neighbors.
  rewrite firstn_all2; auto.
  unfold sorted_neighbors, degree in *.
  now rewrite <- (Permutation_length (sorted_by_weight_perm (Dict.items nbrs))).
Qed.

(** C9. Every pair counted in the co-occurrence dict is an edge of the
    built graph with that count as weight, and an edge between [a] and
    [b] of weight [w] is listed from both ends: the sorted neighbours
    of [a] (lines 135-136, before the cut to ten) contain [(b, w)] and
    those of [b] contain [(a, w)]; so do the top neighbours of a node
    that has at most ten. *)
Theorem edges_listed_from_both_ends df :
  (forall a b w, In ((a, b), w) (Dict.items (co_occurrence df)) ->
     weight (create_weighted_skill_graph df) a b = Some w)
  /\ (forall a b w, weight (create_weighted_skill_graph df) a b = Some w ->
        exists na nb,
          neighbors (create_weighted_skill_graph df) a = Some na
          /\ neighbors (create_weighted_skill_graph df) b = Some nb
          /\ In (b, w) (sorted_neighbors na)
          /\ In (a, w) (sorted_neighbors nb)
          /\ (degree na <= 10 -> In (b, w) (top_neighbors na))
          /\ (degree nb <= 10 -> In (a, w) (top_neighbors nb))).
Proof.
  split.
  - intros a b w Hin.
    unfold Dict.items in Hin.
    apply (In_get_Some (co_occurrence df) (a, b) w
             (NoDup_keys_co_occurrence df)) in Hin.
    rewrite get_co_occurrence in Hin. rewrite weight_create.
    destruct (String.ltb a b) eqn:Hlt; [|discriminate].
    destruct (String.eqb_spec a b) as [->|_]; auto.
    rewrite ltb_irrefl in Hlt. discriminate.
  - intros a b w Hab.
    assert (Hba : weight (create_weighted_skill_graph df) b a = Some w)
      by now rewrite weight_sym.
    apply weight_listed in Hab, Hba.
    destruct Hab as (na & Hna & Hb & Hb'), Hba as (nb & Hnb & Ha & Ha').
    now exists na, nb.
Qed.

Lemma edges_listed_from_both_ends_witness :
  exists na nb,
    neighbors (create_weighted_skill_graph spec_example) "A" = Some na
    /\ neighbors (create_weighted_skill_graph spec_example) "C" = Some nb
    /\ In ("C", 1) (sorted_neighbors na)
    /\ In ("A", 1) (sorted_neighbors nb)
    /\ (degree na <= 10 -> In ("C", 1) (top_neighbors na))
    /\ (degree nb <= 10 -> In ("A", 1) (top_neighbors nb)).
Proof.
  destruct (edges_listed_from_both_ends spec_example) as [Hedge Hboth].
  apply Hboth, Hedge. simpl. auto.
Defined.

(** ** The node set (C10) *)

(** C10. The nodes of the built graph are exactly the distinct values of
    ['Element Name'], each skill once, in order of first appearance; the
    endpoints of every counted pair are nodes before any edge is added,
    so adding the edges creates no node. *)
Theorem nodes_are_the_skills df :
  Dict.keys (create_weighted_skill_graph df) = unique_skills df
  /\ (forall s, has_node (create_weighted_skill_graph df) s = true
               <-> In s (map element_name (rows df)))
  /\ (forall a b w, In ((a, b), w) (Dict.items (co_occurrence df)) ->
        has_node (add_nodes df empty_graph) a = true
        /\ has_node (add_nodes df empty_graph) b = true)
  /\ Dict.keys (create_weighted_skill_graph df)
     = Dict.keys (add_nodes df empty_graph).
Proof.
  destruct (create_nodes df) as [Hk _].
  destruct (add_nodes_spec df) as [Hk0 _].
  repeat split.
  - exact Hk.
  - unfold has_node. rewrite mem_true_iff, Hk. apply In_unique.
  - unfold has_node. rewrite mem_true_iff, Hk. apply In_unique.
  - unfold has_node. rewrite mem_true_iff, Hk0.
    apply (co_occurrence_endpoints df (a, b)).
    change (a, b) with (fst ((a, b), w)). now apply in_map.
  - unfold has_node. rewrite mem_true_iff, Hk0.
    apply (co_occurrence_endpoints df (a, b)).
    change (a, b) with (fst ((a, b), w)). now apply in_map.
  - now rewrite Hk, Hk0.
Qed.

Lemma nodes_are_the_skills_witness :
  has_node (add_nodes spec_example empty_graph) "B" = true
  /\ has_node (add_nodes spec_example empty_graph) "C" = true.
Proof.
  destruct (nodes_are_the_skills spec_example) as (_ & _ & Hends & _).
  apply (Hends "B" "C" 1). simpl. auto.
Defined.

(** ** The region of a node (C5) *)

Lemma find_filter_head {A} (f : A -> bool) l r :
  find f l = Some r -> exists rest, filter f l = r :: rest.
Proof.
  induction l as [|x l IH]; simpl; [discriminate|].
  destruct (f x); [intros [= ->]; eauto | auto].
Qed.

Lemma node_region_first_row df s r :
  first_row df s = Some r ->
  node_region df s = if in_columns "Region" df then Region (region r) else PyNone.
Proof.
  unfold first_row, node_region. intros Hfind.
  destruct (in_columns "Region" df); auto.
  apply find_filter_head in Hfind. destruct Hfind as [rest ->]. reflexivity.
Qed.

Lemma first_row_skill df s r :
  first_row df s = Some r -> In s (unique_skills df).
Proof.
  unfold first_row. intros Hfind. apply find_some in Hfind.
  destruct Hfind as [Hin E]. apply String.eqb_eq in E. subst s.
  apply In_unique. now apply in_map.
Qed.

(** C5, as the code has it. The region attribute of a skill's node is
    the ['Region'] cell of the first row of that skill, in row order,
    whether that cell is missing or not; later rows of the skill are
    not consulted. Without a ['Region'] column the attribute is [None]. *)
Theorem node_region_is_first_row df s r :
  first_row df s = Some r ->
  node_attr (create_weighted_skill_graph df) s =
  Some (if in_columns "Region" df then Region (region r) else PyNone).
Proof.
  intros Hfirst. destruct (create_nodes df) as [_ Ha]. rewrite Ha.
  destruct (add_nodes_spec df) as [_ [Hin _]].
  unfold node_attr. rewrite Hin by eauto using first_row_skill.
  simpl. now rewrite (node_region_first_row df s r).
Qed.

Lemma node_region_is_first_row_witness :
  node_attr (create_weighted_skill_graph late_region) "A" = Some (Region NaN).
Proof.
  apply (node_region_is_first_row late_region "A" (mkrow "1" "A" NaN)).
  reflexivity.
Defined.

(** The skill of [late_region] has a region in its second row only: the
    first region that is not empty is "West", the node keeps the missing
    value of the first row. *)
Lemma node_region_skips_no_empty_cell :
  first_nonempty_region late_region "A" = Some (Str "West")
  /\ node_attr (create_weighted_skill_graph late_region) "A" = Some (Region NaN)
  /\ node_attr (create_weighted_skill_graph late_region) "A"
     <> Some (Region (Str "West")).
Proof. repeat split; try reflexivity. discriminate. Qed.

(** ** The neighbour query (C2, C3, C6) *)

Lemma user_interface_known G line nbrs :
  neighbors G (strip line) = Some nbrs ->
  user_interface G line
  = (query_output (strip line) (top_neighbors nbrs), Return tt).
Proof.
  unfold neighbors, user_interface.
  destruct (Dict.get G (strip line)) as [[a nbrs']|]; simpl; congruence.
Qed.

(** C2, as the code has it. The query on a node lists its top
    neighbours by descending weight; two neighbours of equal weight
    appear in the order in which the adjacency dict [G[s]] lists them,
    which is the order in which their edges were added, not the order
    of their identifiers. *)
Theorem top_neighbors_by_weight_then_adjacency G line nbrs :
  neighbors G (strip line) = Some nbrs ->
  user_interface G line
  = (query_output (strip line) (top_neighbors nbrs), Return tt)
  /\ StronglySorted heavier_first (top_neighbors nbrs)
  /\ forall x y, snd x = snd y ->
       precedes x y (top_neighbors nbrs) -> precedes x y (Dict.items nbrs).
Proof.
  intros Hn. split; [now apply user_interface_known|]. split.
  - apply StronglySorted_firstn, sorted_by_weight_sorted.
  - intros x y Hw Hp. apply sorted_neighbors_keeps_ties; auto.
    now apply precedes_firstn in Hp.
Qed.

Lemma top_neighbors_by_weight_then_adjacency_witness :
  user_interface (create_weighted_skill_graph unordered_job) " A"
  = (query_output "A" (top_neighbors [("C", 1); ("B", 1)]), Return tt)
  /\ StronglySorted heavier_first (top_neighbors [("C", 1); ("B", 1)])
  /\ forall x y, snd x = snd y ->
       precedes x y (top_neighbors [("C", 1); ("B", 1)]) ->
       precedes x y (Dict.items [("C", 1); ("B", 1)]).
Proof.
  apply (top_neighbors_by_weight_then_adjacency
           (create_weighted_skill_graph unordered_job) " A").
  reflexivity.
Defined.

(** In [unordered_job] the neighbours C and B of A have the same weight
    and are returned C first: the result is not in the order the
    specification asks for. *)
Lemma top_neighbors_ties_not_by_name :
  neighbors (create_weighted_skill_graph unordered_job) "A"
    = Some [("C", 1); ("B", 1)]
  /\ top_neighbors [("C", 1); ("B", 1)] = [("C", 1); ("B", 1)]
  /\ ~ StronglySorted weight_then_name (top_neighbors [("C", 1); ("B", 1)]).
Proof.
  repeat split. intros Hs.
  change (top_neighbors [("C", 1); ("B", 1)]) with [("C", 1); ("B", 1)] in Hs.
  inversion Hs as [|? ? _ Hall]; subst.
  inversion Hall as [|? ? Hcb _]; subst.
  destruct Hcb as [Hlt|[_ Hname]]; simpl in *; [lia | discriminate].
Qed.

(** C3, as the code has it. For an identifier that is not a node, the
    query prints "Skill ID not found in the network." and returns
    normally to its caller, with no neighbour listed. *)
Theorem unknown_skill_prints_and_returns G line :
  has_node G (strip line) = false ->
  user_interface G line = (["Skill ID not found in the network."], Return tt).
Proof.
  unfold has_node, Dict.mem, user_interface. intros Hmem.
  now destruct (Dict.get G (strip line)).
Qed.

Lemma unknown_skill_prints_and_returns_witness :
  user_interface (create_weighted_skill_graph spec_example) "Z"
  = (["Skill ID not found in the network."], Return tt).
Proof.
  apply unknown_skill_prints_and_returns. reflexivity.
Defined.

(** The skill Z is not a node of the graph of [spec_example]; the query
    on it prints its message and returns, it raises nothing. *)
Lemma unknown_skill_raises_nothing :
  has_node (create_weighted_skill_graph spec_example) "Z" = false
  /\ fst (user_interface (create_weighted_skill_graph spec_example) "Z")
     = ["Skill ID not found in the network."]
  /\ raised (snd (user_interface (create_weighted_skill_graph spec_example) "Z"))
     = false.
Proof. repeat split. Qed.

(** C6. The query on a node lists at most ten neighbours: all of them
    when the node has fewer than ten, none when it has none. *)
Theorem top_neighbors_length G line nbrs :
  neighbors G (strip line) = Some nbrs ->
  user_interface G line
  = (query_output (strip line) (top_neighbors nbrs), Return tt)
  /\ List.length (top_neighbors nbrs) <= 10
  /\ (degree nbrs < 10 -> List.length (top_neighbors nbrs) = degree nbrs)
  /\ (degree nbrs = 0 -> top_neighbors nbrs = []).
Proof.
  intros Hn. split; [now apply user_interface_known|].
  unfold top_neighbors, degree, sorted_neighbors.
  pose proof (Permutation_length (sorted_by_weight_perm (Dict.items nbrs))) as Hlen.
  rewrite length_firstn. repeat split; try lia.
  intros Hz. rewrite Hz in Hlen.
  destruct (sorted_by_weight (Dict.items nbrs)); [reflexivity | discriminate].
Qed.

Lemma top_neighbors_length_witness :
  user_interface (create_weighted_skill_graph spec_example) "A"
  = (query_output "A" (top_neighbors [("B", 2); ("C", 1)]), Return tt)
  /\ List.length (top_neighbors [("B", 2); ("C", 1)]) <= 10
  /\ (degree [("B", 2); ("C", 1)] < 10 ->
      List.length (top_neighbors [("B", 2); ("C", 1)]) = degree [("B", 2); ("C", 1)])
  /\ (degree [("B", 2); ("C", 1)] = 0 -> top_neighbors [("B", 2); ("C", 1)] = []).
Proof.
  apply (top_neighbors_length (create_weighted_skill_graph spec_example) "A").
  reflexivity.
Defined.

(** ** Regional insights (C4) *)

(** C4. On a frame with the documented columns ['Element ID'],
    ['Element Name'] and ['Region'], [get_regional_insights] asks for a
    column ['JobType'] that the frame does not have and raises, where
    the count of job types per region is West: 1. *)
Theorem regional_insights_wrong_column :
  in_columns "Region" one_region = true
  /\ get_regional_insights one_region
     = Raise "KeyError: 'Column not found: JobType'"
  /\ region_job_type_counts one_region = [("West", 1)].
Proof. repeat split. Qed.

(** * Further properties of the program *)

(** ** Reading the file *)

(** [parse_skill_data] hands back a frame exactly when [read_csv]
    produced one that has both required columns, and then it is that
    frame, unchanged; a ['Region'] column is not asked for. *)
Theorem parse_skill_data_accepts read df :
  snd (parse_skill_data read) = Some df <->
  read = Return df
  /\ in_columns "Element ID" df = true
  /\ in_columns "Element Name" df = true.
Proof.
  unfold parse_skill_data, required_columns, check_required.
  destruct read as [df0|e]; simpl.
  - destruct (in_columns "Element ID" df0) eqn:E1;
      [destruct (in_columns "Element Name" df0) eqn:E2|]; simpl; split.
    + intros [= ->]. auto.
    + intros [[= ->] _]. reflexivity.
    + discriminate.
    + intros [[= ->] [_ H2]]. congruence.
    + discriminate.
    + intros [[= ->] [H1 _]]. congruence.
  - split; [discriminate | intros [? _]; discriminate].
Qed.

Lemma parse_skill_data_accepts_witness :
  snd (parse_skill_data (Return one_region)) = Some one_region.
Proof.
  apply (parse_skill_data_accepts (Return one_region) one_region).
  repeat split.
Defined.

(** A failure is never silent and never raised: when no frame is handed
    back, the last thing printed is the error text; for a frame it names
    the first required column that is missing, ['Element ID'] before
    ['Element Name']. *)
Theorem parse_skill_data_reports read :
  snd (parse_skill_data read) = None ->
  exists msg,
    List.last (fst (parse_skill_data read)) (Text "")
    = Text ("Error parsing skill data: " ++ msg)%string
    /\ (forall e, read = Raise e -> msg = e)
    /\ (forall df, read = Return df ->
          msg = if in_columns "Element ID" df
                then "Missing required column: Element Name"
                else "Missing required column: Element ID").
Proof.
  unfold parse_skill_data, required_columns, check_required.
  destruct read as [df0|e]; simpl.
  - destruct (in_columns "Element ID" df0) eqn:E1;
      [destruct (in_columns "Element Name" df0) eqn:E2|]; simpl;
      try discriminate; intros _; eexists; split; try reflexivity;
      (split; [discriminate | intros df [= <-]; now rewrite E1]).
  - intros _. exists e. repeat split; [intros ? [= ->] | discriminate]; auto.
Qed.

Lemma parse_skill_data_reports_witness :
  exists msg,
    List.last (fst (parse_skill_data
                      (Return {| columns := ["Region"]; rows := [] |})))
              (Text "")
    = Text ("Error parsing skill data: " ++ msg)%string
    /\ (forall e, Return {| columns := ["Region"]; rows := [] |} = Raise e ->
          msg = e)
    /\ (forall df, Return {| columns := ["Region"]; rows := [] |} = Return df ->
          msg = if in_columns "Element ID" df
                then "Missing required column: Element Name"
                else "Missing required column: Element ID").
Proof.
  apply (parse_skill_data_reports
           (Return {| columns := ["Region"]; rows := [] |})).
  reflexivity.
Defined.

(** ** Which edges the graph has *)

(** Two skills are joined exactly when they differ and some job type
    mentions both; the weight is then the number of such job types. *)
Theorem edge_iff_shared_job_type df a b w :
  weight (create_weighted_skill_graph df) a b = Some w <->
  a <> b /\ 0 < w /\ w = groups_with_both df a b.
Proof.
  rewrite weight_create. destruct (String.eqb_spec a b) as [->|Hne].
  - split; [discriminate | intros [H _]; congruence].
  - destruct (groups_with_both df a b) as [|n]; split.
    + discriminate.
    + intros (_ & Hpos & ->). lia.
    + intros [= <-]. repeat split; auto; lia.
    + intros (_ & _ & ->). reflexivity.
Qed.

Lemma edge_iff_shared_job_type_witness :
  weight (create_weighted_skill_graph spec_example) "B" "A" = Some 2
  /\ ("B" <> "A" /\ 0 < 2 /\ 2 = groups_with_both spec_example "B" "A").
Proof.
  split.
  - apply (edge_iff_shared_job_type spec_example "B" "A" 2).
    repeat split; [discriminate | lia].
  - apply (edge_iff_shared_job_type spec_example "B" "A" 2). reflexivity.
Defined.

Lemma filter_length_bound {A} (f : A -> bool) l :
  List.length (filter f l) <= List.length l.
Proof. induction l as [|x l IH]; simpl; [lia | destruct (f x); simpl; lia]. Qed.

(** A weight is at least 1 and at most the number of job types of the
    frame. *)
Theorem edge_weight_bounds df a b w :
  weight (create_weighted_skill_graph df) a b = Some w ->
  1 <= w <= List.length (unique (map element_id (rows df))).
Proof.
  rewrite weight_create. destruct (String.eqb a b); [discriminate|].
  pose proof (filter_length_bound
    (fun e => mentions (rows df) e a && mentions (rows df) e b)
    (unique (map element_id (rows df)))) as Hle.
  fold (groups_with_both df a b) in Hle.
  destruct (groups_with_both df a b); [discriminate|].
  intros [= <-]. lia.
Qed.

Lemma edge_weight_bounds_witness :
  1 <= 2 <= List.length (unique (map element_id (rows repeated_rows))).
Proof.
  apply (edge_weight_bounds repeated_rows "A" "B" 2). reflexivity.
Defined.

Lemma groups_with_both_incl df df' a b :
  incl (rows df) (rows df') ->
  groups_with_both df a b <= groups_with_both df' a b.
Proof.
  intros Hincl. unfold groups_with_both.
  assert (Hm : forall e s, mentions (rows df) e s = true ->
                           mentions (rows df') e s = true).
  { unfold mentions. intros e s. rewrite !existsb_exists.
    intros [r [Hr E]]. exists r. auto. }
  apply NoDup_incl_length.
  - apply NoDup_filter, NoDup_unique.
  - intros e. rewrite !filter_In, !In_unique, !andb_true_iff.
    intros [_ [Ha Hb]]. repeat split; auto.
    apply In_ids_mentions. eauto.
Qed.

(** Rows added to a frame never remove an edge and never lower a
    weight. *)
Theorem more_rows_keep_edges df df' a b w :
  incl (rows df) (rows df') ->
  weight (create_weighted_skill_graph df) a b = Some w ->
  exists w', weight (create_weighted_skill_graph df') a b = Some w' /\ w <= w'.
Proof.
  intros Hincl. rewrite !weight_create.
  pose proof (groups_with_both_incl df df' a b Hincl) as Hle.
  destruct (String.eqb a b); [discriminate|].
  destruct (groups_with_both df a b); [discriminate|]. intros [= <-].
  destruct (groups_with_both df' a b) as [|m]; [lia|].
  exists (S m). split; auto.
Qed.

Lemma more_rows_keep_edges_witness :
  exists w', weight (create_weighted_skill_graph spec_example) "A" "C" = Some w'
             /\ 1 <= w'.
Proof.
  apply (more_rows_keep_edges unordered_job spec_example "A" "C" 1).
  - intros r [<-|[<-|[<-|[]]]]; simpl; auto.
  - reflexivity.
Defined.

(** ** One group *)

Lemma unique_constant {A} `{EqKey A} (l : list A) e :
  l <> [] -> (forall x, In x l -> x = e) -> unique l = [e].
Proof.
  induction l as [|x l IH]; [congruence|]. intros _ Hall. simpl.
  assert (x = e) as -> by (apply Hall; now left).
  destruct l as [|y l]; [reflexivity|].
  rewrite IH; [|discriminate | intros z Hz; apply Hall; now right].
  simpl. now rewrite keqb_refl.
Qed.

(** When all rows belong to one job type, the graph is the complete
    graph on the skills of the frame, every edge of weight 1. *)
Theorem single_job_type_clique df e a b :
  (forall r, In r (rows df) -> element_id r = e) ->
  In a (map element_name (rows df)) ->
  In b (map element_name (rows df)) ->
  a <> b ->
  weight (create_weighted_skill_graph df) a b = Some 1.
Proof.
  intros Hall Ha Hb Hne. rewrite weight_create.
  destruct (String.eqb_spec a b); [congruence|].
  assert (Hm : forall s, In s (map element_name (rows df)) ->
                         mentions (rows df) e s = true).
  { intros s Hs. apply in_map_iff in Hs. destruct Hs as [r [<- Hr]].
    unfold mentions. apply existsb_exists. exists r. split; auto.
    now rewrite (Hall r Hr), !String.eqb_refl. }
  unfold groups_with_both. rewrite (unique_constant _ e).
  - simpl. now rewrite (Hm a Ha), (Hm b Hb).
  - destruct (rows df); [contradiction | discriminate].
  - intros x Hx. apply in_map_iff in Hx. destruct Hx as [r [<- Hr]]. auto.
Qed.

Lemma single_job_type_clique_witness :
  weight (create_weighted_skill_graph unordered_job) "C" "B" = Some 1.
Proof.
  apply (single_job_type_clique unordered_job "1").
  - intros r [<-|[<-|[<-|[]]]]; reflexivity.
  - simpl. auto.
  - simpl. auto.
  - discriminate.
Defined.

Lemma put_fresh {K V} `{EqKey K} (d : Dict.t K V) k v :
  Dict.get d k = None -> Dict.put d k v = d ++ [(k, v)].
Proof.
  induction d as [|[k' v'] d IH]; simpl; auto.
  destruct (keqb k k'); [discriminate|]. intros E. now rewrite IH.
Qed.

Lemma fold_incr_fresh ps : forall co,
  NoDup ps -> (forall p, In p ps -> Dict.get co p = None) ->
  fold_left incr ps co = co ++ map (fun p => (p, 1)) ps.
Proof.
  induction ps as [|p ps IH]; intros co Hnd Hfresh.
  - simpl. now rewrite app_nil_r.
  - inversion Hnd as [|? ? Hnotin Hnd']; subst.
    assert (Hp : incr co p = co ++ [(p, 1)]).
    { unfold incr. rewrite (Hfresh p) by now left. now apply put_fresh, Hfresh; left. }
    cbn [fold_left map]. rewrite Hp, IH; auto.
    + now rewrite <- app_assoc.
    + intros q Hq. rewrite <- Hp. unfold incr.
      rewrite get_put_other by congruence. apply Hfresh. now right.
Qed.

Lemma length_index_pairs l :
  2 * List.length (index_pairs l) = List.length l * (List.length l - 1).
Proof.
  induction l as [|x l IH]; simpl; auto.
  rewrite length_app, length_map. nia.
Qed.

(** The counting loop on one group: a group of [n] distinct skills
    increments [n (n - 1) / 2] keys; a group with fewer than two
    distinct skills leaves the dict as it is, and on an empty dict every
    key of the group ends with the count 1. *)
Theorem count_group_pairs_once co group :
  (List.length (unique (map element_name group)) < 2 ->
     count_group co group = co)
  /\ count_group [] group = map (fun p => (p, 1)) (group_pairs group)
  /\ 2 * List.length (count_group [] group)
     = List.length (unique (map element_name group))
       * (List.length (unique (map element_name group)) - 1).
Proof.
  split; [|split].
  - unfold count_group.
    destruct (unique (map element_name group)) as [|x [|y l]]; simpl; auto; lia.
  - rewrite count_group_pairs.
    apply (fold_incr_fresh (group_pairs group) []); auto.
    apply NoDup_group_pairs.
  - rewrite count_group_pairs.
    rewrite (fold_incr_fresh (group_pairs group) []);
      auto using NoDup_group_pairs.
    simpl. rewrite length_map. unfold group_pairs, canonical_pairs.
    rewrite length_map. apply length_index_pairs.
Qed.

Lemma count_group_pairs_once_witness :
  count_group [(("A", "B"), 3)] [mkrow "7" "Q" NaN; mkrow "7" "Q" NaN]
  = [(("A", "B"), 3)].
Proof.
  apply (count_group_pairs_once [(("A", "B"), 3)]
           [mkrow "7" "Q" NaN; mkrow "7" "Q" NaN]).
  simpl. lia.
Defined.

(** ** The adjacency dicts *)

Lemma adj_nodup_put G n a nbrs :
  adj_nodup G -> NoDup (Dict.keys nbrs) -> adj_nodup (Dict.put G n (a, nbrs)).
Proof.
  intros HG Hn s a' nbrs'. destruct (String.eqb_spec n s) as [->|Hne].
  - rewrite get_put_same. now intros [= _ <-].
  - rewrite get_put_other by assumption. apply HG.
Qed.

Lemma adj_nodup_add_node G n a : adj_nodup G -> adj_nodup (add_node G n a).
Proof.
  intros HG. unfold add_node.
  destruct (Dict.get G n) as [[a0 nbrs]|] eqn:E.
  - apply adj_nodup_put; eauto.
  - apply adj_nodup_put; auto. constructor.
Qed.

Lemma adj_nodup_ensure_node G u : adj_nodup G -> adj_nodup (ensure_node G u).
Proof.
  intros HG. unfold ensure_node. destruct (Dict.mem G u); auto.
  apply adj_nodup_put; auto. constructor.
Qed.

Lemma adj_nodup_set_adj G u v w : adj_nodup G -> adj_nodup (set_adj G u v w).
Proof.
  intros HG. unfold set_adj.
  destruct (Dict.get G u) as [[a nbrs]|] eqn:E; auto.
  apply adj_nodup_put; auto. apply NoDup_keys_put. eauto.
Qed.

Lemma adj_nodup_add_edge G u v w : adj_nodup G -> adj_nodup (add_edge G u v w).
Proof.
  intros HG. rewrite add_edge_unfold.
  auto using adj_nodup_set_adj, adj_nodup_ensure_node.
Qed.

Lemma adj_nodup_create df : adj_nodup (create_weighted_skill_graph df).
Proof.
  unfold create_weighted_skill_graph, add_edges, add_nodes, Dict.items.
  assert (H0 : adj_nodup empty_graph) by (intros s a nbrs; discriminate).
  revert H0. generalize empty_graph.
  induction (unique_skills df) as [|x l IHl]; intros G HG; simpl.
  - revert G HG. induction (co_occurrence df) as [|e co IHco]; intros G HG;
      simpl; auto using adj_nodup_add_edge.
  - apply IHl. now apply adj_nodup_add_node.
Qed.

Lemma neighbors_nodup df s nbrs :
  neighbors (create_weighted_skill_graph df) s = Some nbrs ->
  NoDup (Dict.keys nbrs).
Proof.
  unfold neighbors.
  destruct (Dict.get (create_weighted_skill_graph df) s) as [[a nb]|] eqn:E;
    [|discriminate].
  intros [= <-]. exact (adj_nodup_create df s a nb E).
Qed.

(** ** What the query lists *)

Lemma In_firstn {A} n (l : list A) x : In x (firstn n l) -> In x l.
Proof.
  intros Hin. rewrite <- (firstn_skipn n l). apply in_or_app. now left.
Qed.

Lemma In_top_neighbors nbrs e : In e (top_neighbors nbrs) -> In e (Dict.items nbrs).
Proof.
  unfold top_neighbors, sorted_neighbors. intros Hin. apply In_firstn in Hin.
  eapply Permutation_in; [apply Permutation_sym, sorted_by_weight_perm | exact Hin].
Qed.

(** On the graph built from a frame, every entry the query lists for a
    skill is another skill that shares a job type with it, with the
    number of shared job types as its weight. *)
Theorem listed_neighbors_share_job_types df line nbrs b w :
  neighbors (create_weighted_skill_graph df) (strip line) = Some nbrs ->
  In (b, w) (top_neighbors nbrs) ->
  b <> strip line /\ 0 < w /\ w = groups_with_both df (strip line) b.
Proof.
  intros Hn Hin. apply In_top_neighbors in Hin.
  apply (In_get_Some nbrs b w (neighbors_nodup df _ _ Hn)) in Hin.
  assert (Hw : weight (create_weighted_skill_graph df) (strip line) b = Some w)
    by (unfold weight; now rewrite Hn).
  rewrite weight_create in Hw.
  destruct (String.eqb_spec (strip line) b) as [|Hne]; [discriminate|].
  destruct (groups_with_both df (strip line) b); [discriminate|].
  injection Hw as <-. repeat split; auto; lia.
Qed.

Lemma listed_neighbors_share_job_types_witness :
  "B" <> strip " A " /\ 0 < 2 /\ 2 = groups_with_both repeated_rows (strip " A ") "B".
Proof.
  apply (listed_neighbors_share_job_types repeated_rows " A "
           [("B", 2); ("C", 1)] "B" 2).
  - reflexivity.
  - simpl. auto.
Defined.

(** On the graph built from a frame, the query lists no skill twice. *)
Theorem listed_neighbors_distinct df s nbrs :
  neighbors (create_weighted_skill_graph df) s = Some nbrs ->
  NoDup (map fst (top_neighbors nbrs)).
Proof.
  intros Hn. apply neighbors_nodup in Hn.
  unfold top_neighbors, sorted_neighbors.
  assert (Hs : NoDup (map fst (sorted_by_weight (Dict.items nbrs)))).
  { eapply Permutation_NoDup; [|exact Hn].
    apply Permutation_map, sorted_by_weight_perm. }
  rewrite <- (firstn_skipn 10 (sorted_by_weight (Dict.items nbrs))) in Hs.
  rewrite map_app in Hs. now apply NoDup_app_remove_r in Hs.
Qed.

Lemma listed_neighbors_distinct_witness :
  NoDup (map fst (top_neighbors [("B", 2); ("C", 1)])).
Proof.
  apply (listed_neighbors_distinct spec_example "A"). reflexivity.
Defined.

Lemma StronglySorted_app_rel {A} (R : A -> A -> Prop) l1 l2 x y :
  StronglySorted R (l1 ++ l2) -> In x l1 -> In y l2 -> R x y.
Proof.
  induction l1 as [|z l1 IH]; simpl; [tauto|].
  intros Hs [->|Hx] Hy.
  - inversion Hs as [|? ? _ Hall]; subst. rewrite Forall_forall in Hall.
    apply Hall, in_or_app. now right.
  - apply IH; auto. now inversion Hs.
Qed.

(** The cut to ten keeps the heaviest: a neighbour that is not listed
    weighs no more than any neighbour that is. *)
Theorem unlisted_neighbors_not_heavier G s nbrs x y :
  neighbors G s = Some nbrs ->
  In x (top_neighbors nbrs) ->
  In y (Dict.items nbrs) -> ~ In y (top_neighbors nbrs) ->
  snd y <= snd x.
Proof.
  intros _ Hx Hy Hny. unfold top_neighbors, sorted_neighbors in *.
  pose proof (sorted_by_weight_sorted (Dict.items nbrs)) as Hs.
  rewrite <- (firstn_skipn 10 (sorted_by_weight (Dict.items nbrs))) in Hs.
  apply (StronglySorted_app_rel heavier_first _ _ x y Hs Hx).
  apply (Permutation_in _ (sorted_by_weight_perm _)) in Hy.
  rewrite <- (firstn_skipn 10 (sorted_by_weight (Dict.items nbrs))) in Hy.
  apply in_app_or in Hy. tauto.
Qed.

Lemma unlisted_neighbors_not_heavier_witness : snd ("k", 1) <= snd ("l", 2).
Proof.
  apply (unlisted_neighbors_not_heavier
           (create_weighted_skill_graph twelve_skills) "a"
           [("b", 1); ("c", 1); ("d", 1); ("e", 1); ("f", 1); ("g", 1);
            ("h", 1); ("i", 1); ("j", 1); ("k", 1); ("l", 2)]).
  - reflexivity.
  - simpl. auto.
  - simpl. tauto.
  - simpl. intuition discriminate.
Defined.

(** The query finds exactly the skills of the frame: for a typed
    identifier that, once stripped, is a value of ['Element Name'] it
    lists neighbours, for any other it prints that the skill is not in
    the network. *)
Theorem query_finds_the_skills_of_the_frame df line :
  (In (strip line) (map element_name (rows df)) ->
     exists nbrs,
       neighbors (create_weighted_skill_graph df) (strip line) = Some nbrs
       /\ user_interface (create_weighted_skill_graph df) line
          = (query_output (strip line) (top_neighbors nbrs), Return tt))
  /\ (~ In (strip line) (map element_name (rows df)) ->
       user_interface (create_weighted_skill_graph df) line
       = (["Skill ID not found in the network."], Return tt)).
Proof.
  destruct (create_nodes df) as [Hk _].
  pose proof (mem_true_iff (create_weighted_skill_graph df) (strip line)) as Hmem.
  rewrite Hk in Hmem. unfold unique_skills in Hmem. rewrite In_unique in Hmem.
  unfold Dict.mem, user_interface, neighbors in *.
  destruct (Dict.get (create_weighted_skill_graph df) (strip line))
    as [[a nbrs]|]; split.
  - intros _. exists nbrs. auto.
  - intros Hn. exfalso. apply Hn, Hmem. reflexivity.
  - intros Hin. apply Hmem in Hin. discriminate.
  - reflexivity.
Qed.

Lemma query_finds_the_skills_of_the_frame_witness :
  user_interface (create_weighted_skill_graph spec_example) "a"
  = (["Skill ID not found in the network."], Return tt).
Proof.
  apply (query_finds_the_skills_of_the_frame spec_example "a").
  simpl. intuition discriminate.
Defined.

(** ** Stripping the typed identifier *)












(** A skill that shares no job type with another skill is still found,
    and the query lists nothing for it. *)
Theorem isolated_skill_lists_nothing df line :
  In (strip line) (map element_name (rows df)) ->
  (forall b, b <> strip line -> groups_with_both df (strip line) b = 0) ->
  user_interface (create_weighted_skill_graph df) line
  = (query_output (strip line) [], Return tt).
Proof.
  intros Hin Halone.
  destruct (query_finds_the_skills_of_the_frame df line) as [Hfound _].
  destruct (Hfound Hin) as (nbrs & Hn & ->).
  destruct nbrs as [|[b w] nbrs]; [reflexivity|]. exfalso.
  assert (Hw : weight (create_weighted_skill_graph df) (strip line) b = Some w).
  { unfold weight. rewrite Hn. simpl. now rewrite String.eqb_refl. }
  rewrite weight_create in Hw.
  destruct (String.eqb_spec (strip line) b) as [|Hne]; [discriminate|].
  rewrite Halone in Hw by congruence. discriminate.
Qed.

Lemma isolated_skill_lists_nothing_witness :
  user_interface (create_weighted_skill_graph one_region) "A"
  = (query_output "A" [], Return tt).
Proof.
  apply (isolated_skill_lists_nothing one_region "A").
  - simpl. auto.
  - intros b Hb. change (strip "A") with "A" in *.
    unfold groups_with_both, mentions, one_region, mkrow.
    cbn [rows map element_id element_name unique filter existsb].
    rewrite (proj2 (String.eqb_neq "A" b)) by congruence.
    reflexivity.
Defined.

(** ** Regional insights on a frame that has a ['JobType'] column *)

Lemma insert_key_sorted k l :
  Sorted key_le l -> Sorted key_le (insert_key k l).
Proof.
  induction 1 as [|k' l Hs IH Hhd]; simpl.
  - repeat constructor.
  - destruct (String.leb k k') eqn:E.
    + repeat constructor; auto.
    + assert (Hle : key_le k' k).
      { unfold key_le. destruct (String.leb_total k k'); congruence. }
      constructor; auto.
      destruct l as [|k'' l]; simpl.
      * repeat constructor. exact Hle.
      * destruct (String.leb k k''); constructor; auto.
        now inversion Hhd.
Qed.

Lemma sort_keys_sorted l : Sorted key_le (sort_keys l).
Proof. induction l; simpl; [constructor | now apply insert_key_sorted]. Qed.

Lemma In_dropna l r : In r (dropna l) <-> In (Str r) l.
Proof.
  induction l as [|[|s] l IH]; simpl.
  - tauto.
  - rewrite IH. intuition discriminate.
  - rewrite IH. intuition congruence.
Qed.

Lemma get_tabulated {V} (f : string -> V) ks r :
  In r ks -> Dict.get (map (fun k => (k, f k)) ks) r = Some (f r).
Proof.
  induction ks as [|k ks IH]; simpl; [tauto|].
  destruct (String.eqb_spec r k) as [->|Hne]; auto.
  intros [E|Hin]; [congruence | auto].
Qed.

(** With a ['Region'] and a ['JobType'] column, [get_regional_insights]
    returns one entry per region that occurs, by ascending region and
    without repetition; the entry of a region is the number of distinct
    ['JobType'] values that are not missing among the rows of that
    region.  Rows without a region are counted nowhere. *)
Theorem regional_insights_per_region df :
  in_columns "Region" df = true ->
  in_columns "JobType" df = true ->
  exists counts,
    get_regional_insights df = Return (RegionCounts counts)
    /\ Sorted key_le (Dict.keys counts)
    /\ NoDup (Dict.keys counts)
    /\ (forall r, In r (Dict.keys counts) <-> In (Str r) (map region (rows df)))
    /\ (forall r, In (Str r) (map region (rows df)) ->
          Dict.get counts r
          = Some (nunique (map job_type
                    (filter (fun x => keqb (region x) (Str r)) (rows df))))).
Proof.
  intros HR HJ. unfold get_regional_insights. rewrite HR, HJ.
  eexists. split; [reflexivity|].
  unfold groupby, Dict.keys. rewrite !map_map. cbn [fst snd]. rewrite map_id.
  pose proof (sort_keys_perm (unique (dropna (map region (rows df))))) as Hp.
  assert (Hin : forall r, In r (sort_keys (unique (dropna (map region (rows df)))))
                          <-> In (Str r) (map region (rows df))).
  { intros r. rewrite <- In_dropna, <- (In_unique (dropna _)).
    split; apply Permutation_in; auto using Permutation_sym. }
  repeat split.
  - apply sort_keys_sorted.
  - eapply Permutation_NoDup; [exact Hp | apply NoDup_unique].
  - apply Hin.
  - apply Hin.
  - intros r Hr. apply Hin in Hr.
    apply (get_tabulated
             (fun k => nunique (map job_type
                         (filter (fun x => keqb (region x) (Str k)) (rows df))))
             _ r Hr).
Qed.

Lemma regional_insights_per_region_witness :
  exists counts,
    get_regional_insights with_job_type = Return (RegionCounts counts)
    /\ Sorted key_le (Dict.keys counts)
    /\ NoDup (Dict.keys counts)
    /\ (forall r, In r (Dict.keys counts)
                  <-> In (Str r) (map region (rows with_job_type)))
    /\ (forall r, In (Str r) (map region (rows with_job_type)) ->
          Dict.get counts r
          = Some (nunique (map job_type
                    (filter (fun x => keqb (region x) (Str r))
                            (rows with_job_type))))).
Proof.
  apply (regional_insights_per_region with_job_type); reflexivity.
Defined.

Example regional_insights_with_job_type :
  get_regional_insights with_job_type
  = Return (RegionCounts [("East", 1); ("West", 2)]).
Proof. reflexivity. Qed.

(** ** The edges handed to the drawing *)

Lemma In_edges_from G : forall seen u v w,
  In (u, v, w) (edges_from seen G) ->
  exists a nbrs, In (u, (a, nbrs)) G /\ In (v, w) nbrs /\ ~ In v seen.
Proof.
  induction G as [|[n [a nbrs]] G IH]; intros seen u v w; simpl; [tauto|].
  rewrite in_app_iff, in_map_iff. intros [[[v' w'] [E Hin]]|Hin].
  - simpl in E. injection E as E1 E2 E3. subst n v' w'.
    apply filter_In in Hin. destruct Hin as [Hin Hseen]. simpl in Hseen.
    exists a, nbrs. repeat split; auto.
    intros Hs. apply inb_In in Hs. rewrite Hs in Hseen. discriminate.
  - apply IH in Hin. destruct Hin as (a' & nbrs' & Hin & Hv & Hseen).
    exists a', nbrs'. repeat split; auto. intros Hs. apply Hseen. now right.
Qed.

Lemma edges_from_complete l1 : forall seen u a nbrs l2 v w,
  In (v, w) nbrs -> ~ In v seen -> ~ In v (Dict.keys l1) ->
  In (u, v, w) (edges_from seen (l1 ++ (u, (a, nbrs)) :: l2)).
Proof.
  induction l1 as [|[n [a0 nbrs0]] l1 IH]; intros seen u a nbrs l2 v w Hin Hseen Hl1;
    simpl; apply in_or_app.
  - left. apply in_map_iff. exists (v, w). split; auto.
    apply filter_In. split; auto. simpl.
    destruct (inb v seen) eqn:E; auto. apply inb_In in E. tauto.
  - right. simpl in Hl1. apply IH; auto. intros [<-|Hs]; tauto.
Qed.

Lemma NoDup_canon_edges G : forall seen,
  NoDup (Dict.keys G) ->
  (forall n a nbrs, In (n, (a, nbrs)) G ->
     NoDup (Dict.keys nbrs) /\ ~ In n (Dict.keys nbrs)) ->
  NoDup (map canon_edge (edges_from seen G)).
Proof.
  induction G as [|[n [a nbrs]] G IH]; intros seen Hnd Hadj; simpl;
    [constructor|].
  inversion Hnd as [|? ? Hnotin Hnd']; subst.
  destruct (Hadj n a nbrs) as [Hnbrs Hloop]; [now left|].
  rewrite map_app, map_map. apply NoDup_app.
  - apply NoDup_map_NoDup_ForallPairs.
    + intros [v w] [v' w'] Hv Hv' E. apply filter_In in Hv, Hv'.
      destruct Hv as [Hv _], Hv' as [Hv' _].
      unfold canon_edge in E. simpl in E. injection E as E Ew.
      assert (Hnv : n <> v).
      { intros Hn. apply Hloop. rewrite Hn. change v with (fst (v, w)).
        now apply in_map. }
      assert (Hnv' : n <> v').
      { intros Hn. apply Hloop. rewrite Hn. change v' with (fst (v', w')).
        now apply in_map. }
      apply sorted_pair_inj in E; auto. congruence.
    + apply NoDup_filter. now apply NoDup_map_inv in Hnbrs.
  - apply IH; auto.
    intros n0 a0 nbrs0 H0. apply (Hadj n0 a0 nbrs0). now right.
  - intros [[p q] w] Hin1 Hin2.
    apply in_map_iff in Hin1. destruct Hin1 as [[v w1] [E1 Hv]].
    apply in_map_iff in Hin2. destruct Hin2 as [[[u' v'] w2] [E2 He]].
    apply filter_In in Hv. destruct Hv as [Hv _].
    apply In_edges_from in He. destruct He as (a' & nbrs' & Hu' & Hv' & Hseen).
    unfold canon_edge in E1, E2. simpl in E1, E2.
    injection E1 as E1 _. injection E2 as E2 _.
    assert (Hnv : n <> v).
    { intros ->. apply Hloop. change v with (fst (v, w1)). now apply in_map. }
    assert (Hu'v' : u' <> v').
    { intros ->. apply (Hadj v' a' nbrs'); [now right|].
      change v' with (fst (v', w2)). now apply in_map. }
    assert (Hnu' : n <> u').
    { intros ->. apply Hnotin. change u' with (fst (u', (a', nbrs'))).
      now apply in_map. }
    assert (Hnv' : n <> v') by (intros ->; apply Hseen; now left).
    apply sorted_pair_spec in E1, E2; auto.
    destruct E1 as [_ [[E1 _]|[E1 _]]], E2 as [_ [[E2 E2']|[E2 E2']]]; congruence.
Qed.

Lemma NoDup_app_disjoint {A} (l l' : list A) x :
  NoDup (l ++ l') -> In x l -> In x l' -> False.
Proof.
  induction l as [|y l IH]; simpl; [tauto|].
  intros Hnd [->|Hx] Hx'.
  - inversion Hnd as [|? ? Hnotin _]; subst. apply Hnotin, in_or_app. now right.
  - apply IH; auto. now inversion Hnd.
Qed.

Lemma In_graph_get (G : Graph) n a nbrs :
  NoDup (Dict.keys G) -> In (n, (a, nbrs)) G -> Dict.get G n = Some (a, nbrs).
Proof. apply In_get_Some. Qed.

Lemma NoDup_keys_create df : NoDup (Dict.keys (create_weighted_skill_graph df)).
Proof. destruct (create_nodes df) as [-> _]. apply NoDup_unique. Qed.

Lemma In_create_weight df n a nbrs v w :
  In (n, (a, nbrs)) (create_weighted_skill_graph df) -> In (v, w) nbrs ->
  weight (create_weighted_skill_graph df) n v = Some w.
Proof.
  intros Hn Hv. apply In_graph_get in Hn; [|apply NoDup_keys_create].
  unfold weight, neighbors. rewrite Hn. simpl.
  apply In_get_Some; auto. exact (adj_nodup_create df n a nbrs Hn).
Qed.

Lemma create_simple df n a nbrs :
  In (n, (a, nbrs)) (create_weighted_skill_graph df) ->
  NoDup (Dict.keys nbrs) /\ ~ In n (Dict.keys nbrs).
Proof.
  intros Hn. split.
  - apply In_graph_get in Hn; [|apply NoDup_keys_create].
    exact (adj_nodup_create df n a nbrs Hn).
  - intros Hin. apply in_map_iff in Hin. destruct Hin as [[v w] [E Hv]].
    simpl in E. subst v.
    pose proof (In_create_weight df n a nbrs n w Hn Hv) as Hw.
    rewrite weight_create, String.eqb_refl in Hw. discriminate.
Qed.

Lemma weight_co_occurrence df a b w :
  In ((a, b), w) (Dict.items (co_occurrence df)) <->
  String.ltb a b = true /\ weight (create_weighted_skill_graph df) a b = Some w.
Proof.
  rewrite weight_create. split.
  - intros Hin. unfold Dict.items in Hin.
    apply (In_get_Some (co_occurrence df) (a, b) w
             (NoDup_keys_co_occurrence df)) in Hin.
    rewrite get_co_occurrence in Hin.
    destruct (String.ltb a b) eqn:Hlt; [|discriminate]. split; auto.
    destruct (String.eqb_spec a b) as [->|_]; auto.
    rewrite ltb_irrefl in Hlt. discriminate.
  - intros [Hlt Hw]. unfold Dict.items. apply get_Some_In.
    rewrite get_co_occurrence, Hlt.
    destruct (String.eqb a b); [discriminate | exact Hw].
Qed.

Lemma In_canon_edges df x :
  In x (map canon_edge (edges (create_weighted_skill_graph df)))
  <-> In x (Dict.items (co_occurrence df)).
Proof.
  destruct x as [[p q] w]. rewrite weight_co_occurrence, in_map_iff. split.
  - intros [[[u v] w'] [E Hin]]. unfold canon_edge in E. simpl in E.
    injection E as E ->. apply In_edges_from in Hin.
    destruct Hin as (a & nbrs & Hu & Hv & _).
    pose proof (In_create_weight df u a nbrs v w Hu Hv) as Hw.
    assert (Hne : u <> v).
    { intros ->. rewrite weight_create, String.eqb_refl in Hw. discriminate. }
    apply sorted_pair_spec in E; auto.
    destruct E as [Hlt [[<- <-]|[<- <-]]]; split; auto.
    now rewrite weight_sym.
  - intros [Hlt Hw].
    assert (Hne : p <> q)
      by (intros ->; rewrite ltb_irrefl in Hlt; discriminate).
    assert (Hw' : weight (create_weighted_skill_graph df) q p = Some w)
      by now rewrite weight_sym.
    unfold weight, neighbors in Hw, Hw'.
    destruct (Dict.get (create_weighted_skill_graph df) p) as [[ap np]|] eqn:Ep;
      [|discriminate].
    destruct (Dict.get (create_weighted_skill_graph df) q) as [[aq nq]|] eqn:Eq;
      [|discriminate].
    simpl in Hw, Hw'. apply get_Some_In in Hw, Hw'.
    apply get_Some_In in Ep. apply in_split in Ep.
    destruct Ep as (l1 & l2 & EG).
    destruct (in_dec string_dec q (Dict.keys l1)) as [Hq|Hq].
    + apply in_map_iff in Hq. destruct Hq as [[q' [aq' nq']] [E Hq]].
      simpl in E. subst q'. apply in_split in Hq.
      destruct Hq as (l1' & l1'' & El1).
      assert (EG' : create_weighted_skill_graph df
                    = l1' ++ (q, (aq', nq')) :: (l1'' ++ (p, (ap, np)) :: l2)).
      { rewrite EG, El1, <- app_assoc. reflexivity. }
      pose proof (NoDup_keys_create df) as Hnd.
      assert (Hget : Dict.get (create_weighted_skill_graph df) q = Some (aq', nq')).
      { apply In_graph_get; auto. rewrite EG'. apply in_or_app. right. now left. }
      rewrite Eq in Hget. injection Hget as <- <-.
      exists (q, p, w). split.
      * unfold canon_edge. simpl. f_equal. apply sorted_pair_spec; auto.
      * unfold edges. rewrite EG'. apply edges_from_complete; auto.
        intros Hp. rewrite EG' in Hnd. unfold Dict.keys in Hnd, Hp.
        rewrite map_app in Hnd.
        apply (NoDup_app_disjoint _ _ p Hnd Hp).
        change p with (fst (p, (ap, np))). apply in_map.
        right. apply in_or_app. right. now left.
    + exists (p, q, w). split.
      * unfold canon_edge. simpl. f_equal. apply sorted_pair_spec; auto.
      * unfold edges. rewrite EG. apply edges_from_complete; auto.
Qed.

(** [G.edges] reports every pair of the co-occurrence dict exactly once,
    from one of its two ends and with its count: the edges, read as
    dict entries, are a rearrangement of the dict, and so the weights
    handed to the drawing are a rearrangement of the counts. *)
Theorem drawn_edges_are_the_counted_pairs df :
  Permutation (map canon_edge (edges (create_weighted_skill_graph df)))
              (Dict.items (co_occurrence df))
  /\ Permutation (edge_weights (create_weighted_skill_graph df))
                 (map snd (Dict.items (co_occurrence df)))
  /\ List.length (edges (create_weighted_skill_graph df))
     = List.length (Dict.items (co_occurrence df)).
Proof.
  assert (Hp : Permutation (map canon_edge (edges (create_weighted_skill_graph df)))
                           (Dict.items (co_occurrence df))).
  { apply NoDup_Permutation.
    - apply NoDup_canon_edges; [apply NoDup_keys_create | apply create_simple].
    - apply (NoDup_map_inv fst), NoDup_keys_co_occurrence.
    - apply In_canon_edges. }
  split; [exact Hp|]. split.
  - apply (Permutation_map snd) in Hp. rewrite map_map in Hp. exact Hp.
  - apply Permutation_length in Hp. now rewrite length_map in Hp.
Qed.

Example edges_spec_example :
  edges (create_weighted_skill_graph spec_example)
  = [("A", "B", 2); ("A", "C", 1); ("B", "C", 1)].
Proof. reflexivity. Qed.

(** ** The co-occurrence dict *)

(** A pair of skills is counted under one key only, the one with the
    smaller identifier first: that key is present exactly when some job
    type mentions both skills, with the number of such job types as its
    count, and the reversed key is never present. *)
Theorem co_occurrence_lookup df a b w :
  Dict.get (co_occurrence df) (a, b) = Some w <->
  String.ltb a b = true /\ 0 < w /\ w = groups_with_both df a b.
Proof.
  rewrite get_co_occurrence. destruct (String.ltb a b).
  - destruct (groups_with_both df a b) as [|n]; split.
    + discriminate.
    + intros (_ & Hpos & ->). lia.
    + intros [= <-]. repeat split; lia.
    + intros (_ & _ & ->). reflexivity.
  - split; [discriminate | intros [? _]; discriminate].
Qed.

Lemma co_occurrence_lookup_witness :
  Dict.get (co_occurrence repeated_rows) ("A", "B") = Some 2.
Proof.
  apply (co_occurrence_lookup repeated_rows "A" "B" 2).
  repeat split. lia.
Defined.

(** ** Node attributes *)



(** ** The size of the answer *)

(** For a skill of the graph the query prints a heading, one line per
    listed neighbour and a closing line; it lists ten neighbours as soon
    as the skill has ten or more. *)
Theorem query_prints_ten_at_most G line nbrs :
  neighbors G (strip line) = Some nbrs ->
  List.length (fst (user_interface G line)) = 2 + Nat.min 10 (degree nbrs)
  /\ (10 <= degree nbrs -> List.length (top_neighbors nbrs) = 10).
Proof.
  intros Hn. rewrite (user_interface_known G line nbrs Hn).
  unfold query_output, top_neighbors, sorted_neighbors, degree.
  pose proof (Permutation_length (sorted_by_weight_perm (Dict.items nbrs))) as Hlen.
  cbn [fst List.length]. rewrite length_app, length_map, !length_firstn.
  cbn [List.length]. lia.
Qed.

Lemma query_prints_ten_at_most_witness :
  List.length (fst (user_interface (create_weighted_skill_graph twelve_skills) "a"))
  = 2 + Nat.min 10 (degree [("b", 1); ("c", 1); ("d", 1); ("e", 1); ("f", 1);
                            ("g", 1); ("h", 1); ("i", 1); ("j", 1); ("k", 1);
                            ("l", 2)])
  /\ (10 <= degree [("b", 1); ("c", 1); ("d", 1); ("e", 1); ("f", 1);
                   ("g", 1); ("h", 1); ("i", 1); ("j", 1); ("k", 1); ("l", 2)] ->
      List.length (top_neighbors [("b", 1); ("c", 1); ("d", 1); ("e", 1);
                                  ("f", 1); ("g", 1); ("h", 1); ("i", 1);
                                  ("j", 1); ("k", 1); ("l", 2)]) = 10).
Proof.
  apply (query_prints_ten_at_most (create_weighted_skill_graph twelve_skills) "a").
  reflexivity.
Defined.
